(** * FractalGeometry: the orbit-geometry kernel of audiOrbits

    A shallow embedding of [src/FractalGeometry.wasm.asc] (AssemblyScript
    compiled to WebAssembly) together with the properties of the level
    generator: pool allocation, the chaotic iteration, extrema tracking,
    normalisation and the tunnel warp.

    Numbers are modelled as the code has them:
    - [f32] and [f64] values are IEEE-754 binary floats, [spec_float] with
      precision 24 / 53 and round-to-nearest-even;
    - [i32] values are [Z] with the wrap-around written out;
    - a [Float32Array] is a [list] updated by index, an out-of-range index
      being a trap;
    - a trap (WebAssembly [unreachable], a thrown error) is [None]. *)

From Stdlib Require Import ZArith Floats.SpecFloat.
From stdpp Require Import base option list sets.

#[local] Set Warnings "-clear-no-such-hyp".
#[local] Set Default Proof Using "Type".

Open Scope Z_scope.

(** ** Machine numbers *)

Module I32.

Definition min_signed : Z := - 2 ^ 31.
Definition max_signed : Z := 2 ^ 31 - 1.

(** Two's complement wrap-around of a 32 bit result. *)
Definition wrap (n : Z) : Z := (n + 2 ^ 31) mod 2 ^ 32 - 2 ^ 31.

Definition in_range (n : Z) : bool := (min_signed <=? n) && (n <=? max_signed).

Definition add (a b : Z) : Z := wrap (a + b).
Definition mul (a b : Z) : Z := wrap (a * b).
(** [i32.div_s]: the quotient is truncated toward zero.  The only
    divisor in the program is the constant 100. *)
Definition div_s (a b : Z) : Z := wrap (Z.quot a b).

End I32.

(** A float of either width; the width is fixed by the operation applied. *)
Abbreviation float := spec_float.

#[global] Instance float_inhabited : Inhabited float := populate (S754_zero false).

#[global] Instance float_eq_dec : EqDecision float.
Proof. solve_decision. Defined.

Module F32.
Definition prec : Z := 24.
Definition emax : Z := 128.
Definition add := SFadd prec emax.
Definition sub := SFsub prec emax.
Definition mul := SFmul prec emax.
Definition div := SFdiv prec emax.
Definition ltb := SFltb.
Definition eqb := SFeqb.
(** [a > b] is [b < a]; both are false when an operand is NaN. *)
Definition gtb (a b : float) := SFltb b a.
Definition of_Z (n : Z) : float := binary_normalize prec emax n 0 false.
(** [f32.demote_f64]: round to nearest, ties to even. *)
Definition of_f64 (x : float) : float :=
  match x with
  | S754_finite s m e => binary_round prec emax s m e
  | _ => x
  end.

Definition zero : float := S754_zero false.
Definition one : float := Eval vm_compute in of_Z 1.
Definition two : float := Eval vm_compute in of_Z 2.
Definition c100 : float := Eval vm_compute in of_Z 100.
Definition c123 : float := Eval vm_compute in of_Z 123.
Definition half : float := Eval vm_compute in binary_normalize prec emax 1 (-1) false.
Definition c0_75 : float := Eval vm_compute in binary_normalize prec emax 3 (-2) false.
End F32.

Module F64.
Definition prec : Z := 53.
Definition emax : Z := 1024.
Definition sub := SFsub prec emax.
Definition mul := SFmul prec emax.
Definition sqrt := SFsqrt prec emax.
Definition abs := SFabs.
(** [f64.promote_f32]: exact, the mantissa is re-aligned. *)
Definition of_f32 (x : float) : float :=
  match x with
  | S754_finite s m e => binary_round prec emax s m e
  | _ => x
  end.
(** [f64.convert_i32_s]: exact for every 32 bit integer. *)
Definition of_i32 (n : Z) : float := binary_normalize prec emax n 0 false.
Definition half : float := Eval vm_compute in binary_normalize prec emax 1 (-1) false.

(** [Math.floor] followed by [i32.trunc_f64_s]: the floor of the value
    as an integer; the conversion traps on NaN, on an infinity and
    outside the 32 bit range. *)
Definition floor_i32 (x : float) : option Z :=
  match x with
  | S754_zero _ => Some 0
  | S754_finite s m e =>
      let v := match e with
               | Zneg p => Z.div (cond_Zopp s (Zpos m)) (2 ^ Zpos p)
               | _ => cond_Zopp s (Zpos m) * 2 ^ e
               end in
      if I32.in_range v then Some v else None
  | _ => None
  end.
End F64.

(** ** Arrays *)

(** A [Float32Array]. *)
Abbreviation buffer := (list float).

(** [Array<Float32Array | null>].  Every slot is given a buffer by the
    allocation loop of [myBuild] before the array is used, so a slot is
    never observed as [null]. *)
Abbreviation pool := (list (list float)).

(** Checked element read, [a[i]]: the bounds check compares unsigned, so
    a negative index is out of range as well. *)
Definition arr_get {A : Type} (a : list A) (i : Z) : option A :=
  if decide (0 <= i) then a !! Z.to_nat i else None.

(** Checked element write, [a[i] = v], on an array of fixed length. *)
Definition arr_set {A : Type} (a : list A) (i : Z) (v : A) : option (list A) :=
  if decide (0 <= i < Z.of_nat (length a)) then Some (<[Z.to_nat i := v]> a) else None.

(** [new Float32Array(len)]: zero filled; a negative length throws. *)
Definition new_Float32Array (len : Z) : option buffer :=
  if decide (0 <= len) then Some (replicate (Z.to_nat len) F32.zero) else None.

(** [a.fill(v)] *)
Definition fill (a : buffer) (v : float) : buffer := replicate (length a) v.

(** ** The kernel *)

Record extrema := Extrema { xMin : float; xMax : float; yMin : float; yMax : float }.

(** The five randomised parameters [al], [bl], [cl], [dl], [el]. *)
Record params := Params { al : float; bl : float; cl : float; dl : float; el : float }.

Section Kernel.

(** [Math.log] comes from the runtime's math library; the kernel is
    verified for any implementation of it. *)
Variable Math_log : float -> float.

(** The values returned by the successive calls of [Math.random], in
    call order. *)
Variable Math_random : nat -> float.

Definition isqrt (n : float) : float := F32.of_f64 (F64.sqrt (F64.of_f32 n)).
Definition iabs (n : float) : float := F32.of_f64 (F64.abs (F64.of_f32 n)).
Definition ilog (n : float) : float := F32.of_f64 (Math_log (F64.of_f32 n)).
(** [irnd()], as the [c]-th call of [Math.random]. *)
Definition irnd (c : nat) : float := F32.of_f64 (Math_random c).
Definition ifloor (n : float) : option Z := F64.floor_i32 n.

(** [a_min + random * (a_max - a_min)] *)
Definition draw_param (lo hi u : float) : float :=
  F32.add lo (F32.mul u (F32.sub hi lo)).

(** [s / 100 * (0.5 - irnd()) as f32]: [s] and [100] are both [i32], so
    the quotient is the integer one; the product is formed in double
    precision and demoted. *)
Definition subset_seed (s : Z) (u : float) : float :=
  F32.of_f64 (F64.mul (F64.of_i32 (I32.div_s s 100)) (F64.sub F64.half (F64.of_f32 u))).

(** The iteration formula; the test on [choice] is made at every point. *)
Definition iter_z (p : params) (choice x : float) : float :=
  if F32.ltb choice F32.half then
    F32.add (dl p) (isqrt (iabs (F32.sub (F32.mul (bl p) x) (cl p))))
  else if F32.ltb choice F32.c0_75 then
    F32.add (dl p) (isqrt (isqrt (iabs (F32.sub (F32.mul (bl p) x) (cl p)))))
  else
    F32.add (dl p) (ilog (F32.add F32.two (isqrt (iabs (F32.sub (F32.mul (bl p) x) (cl p)))))).

Definition iter_x1 (x y z : float) : float :=
  if F32.gtb x F32.zero then F32.sub y z
  else if F32.eqb x F32.zero then y
  else F32.add y z.

(** [if (v < lo) lo = v; else if (v > hi) hi = v;] *)
Definition widen (lo hi v : float) : float * float :=
  if F32.ltb v lo then (v, hi)
  else if F32.gtb v hi then (lo, v)
  else (lo, hi).

Definition track (ext : extrema) (x y : float) : extrema :=
  let '(xlo, xhi) := widen (xMin ext) (xMax ext) x in
  let '(ylo, yhi) := widen (yMin ext) (yMax ext) y in
  Extrema xlo xhi ylo yhi.

(** One pass of the inner loop body gives the next [(x, y)]. *)
Definition orbit_step (p : params) (choice : float) (xy : float * float) : float * float :=
  let '(x, y) := xy in
  let z := iter_z p choice x in
  let x1 := iter_x1 x y z in
  (F32.add x1 (el p), F32.sub (al p) x).

(** The body of the inner generation loop at point index [i]. *)
Definition gen_body (p : params) (choice : float) (i : Z)
    (x y : float) (ext : extrema) (sets : buffer)
    : option (float * float * extrema * buffer) :=
  let z := iter_z p choice x in
  let x1 := iter_x1 x y z in
  let ext := track ext x y in
  let bid := I32.mul i 2 in
  let y' := F32.sub (al p) x in
  sets ← arr_set sets (I32.add bid 1) y';
  let x' := F32.add x1 (el p) in
  sets ← arr_set sets bid x';
  Some (x', y', ext, sets).

(** [for (i = 0; i < numPoints; i++)] of the generation pass, with [n]
    iterations left. *)
Fixpoint gen_points (p : params) (choice : float) (n : nat) (i : Z)
    (x y : float) (ext : extrema) (sets : buffer)
    : option (float * float * extrema * buffer) :=
  match n with
  | O => Some (x, y, ext, sets)
  | S n' =>
      '(x, y, ext, sets) ← gen_body p choice i x y ext sets;
      gen_points p choice n' (I32.add i 1) x y ext sets
  end.

(** [for (s = 0; s < numSubsets; s++)] of the generation pass; [c] counts
    the calls of [Math.random] made so far. *)
Fixpoint gen_subsets (p : params) (choice : float) (numPoints : Z) (n : nat)
    (s : Z) (c : nat) (ext : extrema) (reuse : pool) : option (extrema * pool) :=
  match n with
  | O => Some (ext, reuse)
  | S n' =>
      let x := subset_seed s (irnd c) in
      let y := subset_seed s (irnd (S c)) in
      sets ← arr_get reuse s;
      '(_, _, ext, sets) ← gen_points p choice (Z.to_nat numPoints) 0 x y ext sets;
      gen_subsets p choice numPoints n' (I32.add s 1) (S (S c)) ext
        (<[Z.to_nat s := sets]> reuse)
  end.

Definition getPointDistance (x1 y1 x2 y2 : float) : float :=
  let a := F32.sub x1 x2 in
  let b := F32.sub y1 y2 in
  isqrt (F32.add (F32.mul a a) (F32.mul b b)).

(** The tunnel processing of one re-scaled point. *)
Definition tunnel (scaleFactor iRadius oRadius : float) (x y : float) : float * float :=
  if F32.gtb iRadius F32.zero then
    let dist := F32.div (getPointDistance F32.zero F32.zero x y) scaleFactor in
    if F32.ltb dist iRadius then
      let scaling := F32.div dist iRadius in
      let outer := F32.div scaling oRadius in
      (F32.add (F32.div x scaling) (F32.mul x outer),
       F32.add (F32.div y scaling) (F32.mul y outer))
    else (x, y)
  else (x, y).

(** The quantities the normalisation pass reads. *)
Record scaling := Scaling {
  sc_factor : float; sc_iRadius : float; sc_oRadius : float;
  sc_scaleX : float; sc_scaleY : float; sc_xMin : float; sc_yMin : float }.

Definition rescale (k : scaling) (xr yr : float) : float * float :=
  let x := F32.sub (F32.mul (sc_scaleX k) (F32.sub xr (sc_xMin k))) (sc_factor k) in
  let y := F32.sub (F32.mul (sc_scaleY k) (F32.sub yr (sc_yMin k))) (sc_factor k) in
  tunnel (sc_factor k) (sc_iRadius k) (sc_oRadius k) x y.

Fixpoint norm_points (k : scaling) (n : nat) (i : Z) (sets : buffer) : option buffer :=
  match n with
  | O => Some sets
  | S n' =>
      let bid := I32.mul i 2 in
      xr ← arr_get sets bid;
      yr ← arr_get sets (I32.add bid 1);
      let '(x, y) := rescale k xr yr in
      sets ← arr_set sets bid x;
      sets ← arr_set sets (I32.add bid 1) y;
      norm_points k n' (I32.add i 1) sets
  end.

Fixpoint norm_subsets (k : scaling) (numPoints : Z) (n : nat) (s : Z) (reuse : pool)
    : option pool :=
  match n with
  | O => Some reuse
  | S n' =>
      sets ← arr_get reuse s;
      sets ← norm_points k (Z.to_nat numPoints) 0 sets;
      norm_subsets k numPoints n' (I32.add s 1) (<[Z.to_nat s := sets]> reuse)
  end.

(** The randomised parameters, drawn by the calls 0 to 4 of [Math.random]. *)
Definition draw_params (levelSettings : list float) : params :=
  Params
    (draw_param (levelSettings !!! 7%nat) (levelSettings !!! 8%nat) (irnd 0))
    (draw_param (levelSettings !!! 9%nat) (levelSettings !!! 10%nat) (irnd 1))
    (draw_param (levelSettings !!! 11%nat) (levelSettings !!! 12%nat) (irnd 2))
    (draw_param (levelSettings !!! 13%nat) (levelSettings !!! 14%nat) (irnd 3))
    (draw_param (levelSettings !!! 15%nat) (levelSettings !!! 16%nat) (irnd 4)).

Definition initial_extrema : extrema := Extrema F32.zero F32.zero F32.zero F32.zero.

(** The first half of [FractalGeometry]: parameters, [choice] and the
    generation loops. *)
Definition generate (levelSettings : list float) (numSubsets numPoints : Z) (reuse : pool)
    : option (extrema * pool) :=
  let p := draw_params levelSettings in
  let choice := irnd 5 in
  gen_subsets p choice numPoints (Z.to_nat numSubsets) 0 6 initial_extrema reuse.

Definition level_scaling (levelSettings : list float) (ext : extrema) : scaling :=
  let scaleFactor := levelSettings !!! 3%nat in
  let iRadius := F32.div (levelSettings !!! 5%nat) F32.c100 in
  let oRadius := F32.div (levelSettings !!! 6%nat) F32.c100 in
  Scaling scaleFactor iRadius oRadius
    (F32.div (F32.mul F32.two scaleFactor) (F32.sub (xMax ext) (xMin ext)))
    (F32.div (F32.mul F32.two scaleFactor) (F32.sub (yMax ext) (yMin ext)))
    (xMin ext) (yMin ext).

Definition FractalGeometry (levelSettings : list float) (levelId : Z) (reuse : pool)
    : option pool :=
  numSubsets ← ifloor (F64.of_f32 (levelSettings !!! 1%nat));
  numPoints ← ifloor (F64.of_f32 (levelSettings !!! 2%nat));
  '(ext, reuse) ← generate levelSettings numSubsets numPoints reuse;
  norm_subsets (level_scaling levelSettings ext) numPoints (Z.to_nat numSubsets) 0 reuse.

(** The allocation loop of [myBuild], [n] buffers left to create. *)
Fixpoint alloc_buffers (n : nat) (numPoints2 : Z) : option pool :=
  match n with
  | O => Some []
  | S n' =>
      x ← new_Float32Array numPoints2;
      rest ← alloc_buffers n' numPoints2;
      Some (fill x F32.c123 :: rest)
  end.

(** [new Array<Float32Array | null>(numSubsets)], which throws on a
    negative length, followed by the allocation loop. *)
Definition new_pool (numSubsets numPoints2 : Z) : option pool :=
  if decide (0 <= numSubsets) then alloc_buffers (Z.to_nat numSubsets) numPoints2 else None.

(** The pool [myBuild] hands to the generator: [lastData] when it is set,
    a new pool otherwise. *)
Definition acquire (levelSettings : list float) (lastData : option pool) : option pool :=
  numSubsets ← ifloor (F64.of_f32 (levelSettings !!! 0%nat));
  n1 ← ifloor (F64.of_f32 (levelSettings !!! 1%nat));
  let numPoints2 := I32.mul n1 2 in
  match lastData with
  | None => new_pool numSubsets numPoints2
  | Some data => Some data
  end.

(** [myBuild]: the returned array is also the new value of [lastData]. *)
Definition myBuild (levelSettings : list float) (id : Z) (lastData : option pool)
    : option pool :=
  data ← acquire levelSettings lastData;
  FractalGeometry levelSettings id data.

Definition build (levelSettings : list float) (id : Z) (lastData : option pool)
    : option pool :=
  myBuild levelSettings id lastData.

End Kernel.

(** ** Reference definitions

    The generation pass as the design describes it: the branch of the
    iteration formula is selected once, before the loops, from the single
    draw [choice]. *)

Inductive branch := SqrtBranch | SqrtSqrtBranch | LogBranch.

Definition select_branch (choice : float) : branch :=
  if F32.ltb choice F32.half then SqrtBranch
  else if F32.ltb choice F32.c0_75 then SqrtSqrtBranch
  else LogBranch.

Section Reference.

Variable Math_log : float -> float.
Variable Math_random : nat -> float.

(** [z = d + sqrt(|b x - c|)], [z = d + sqrt(sqrt(|b x - c|))] and
    [z = d + log(2 + sqrt(|b x - c|))]. *)
Definition branch_z (br : branch) (p : params) (x : float) : float :=
  let r := isqrt (iabs (F32.sub (F32.mul (bl p) x) (cl p))) in
  match br with
  | SqrtBranch => F32.add (dl p) r
  | SqrtSqrtBranch => F32.add (dl p) (isqrt r)
  | LogBranch => F32.add (dl p) (ilog Math_log (F32.add F32.two r))
  end.

Fixpoint branch_points (br : branch) (p : params) (n : nat) (i : Z)
    (x y : float) (ext : extrema) (sets : buffer)
    : option (float * float * extrema * buffer) :=
  match n with
  | O => Some (x, y, ext, sets)
  | S n' =>
      let z := branch_z br p x in
      let x1 := iter_x1 x y z in
      let y' := F32.sub (al p) x in
      let x' := F32.add x1 (el p) in
      sets ← arr_set sets (I32.add (I32.mul i 2) 1) y';
      sets ← arr_set sets (I32.mul i 2) x';
      branch_points br p n' (I32.add i 1) x' y' (track ext x y) sets
  end.

Fixpoint branch_subsets (br : branch) (p : params) (numPoints : Z) (n : nat)
    (s : Z) (c : nat) (ext : extrema) (reuse : pool) : option (extrema * pool) :=
  match n with
  | O => Some (ext, reuse)
  | S n' =>
      let x := subset_seed s (irnd Math_random c) in
      let y := subset_seed s (irnd Math_random (S c)) in
      sets ← arr_get reuse s;
      '(_, _, ext, sets) ← branch_points br p (Z.to_nat numPoints) 0 x y ext sets;
      branch_subsets br p numPoints n' (I32.add s 1) (S (S c)) ext
        (<[Z.to_nat s := sets]> reuse)
  end.

(** Five parameter draws, then one draw of [choice], then the loops. *)
Definition generate_by_branch (levelSettings : list float) (numSubsets numPoints : Z)
    (reuse : pool) : option (extrema * pool) :=
  let p := draw_params Math_random levelSettings in
  let br := select_branch (irnd Math_random 5) in
  branch_subsets br p numPoints (Z.to_nat numSubsets) 0 6 initial_extrema reuse.

(** The state of [lastData] after one [build] call per stream of draws in
    [history], the configuration being the same at every call. *)
Fixpoint after_builds (levelSettings : list float) (history : list (nat -> float))
    (lastData : option pool) : option (option pool) :=
  match history with
  | [] => Some lastData
  | draws :: history' =>
      data ← build Math_log draws levelSettings 0 lastData;
      after_builds levelSettings history' (Some data)
  end.

End Reference.

(** ** Predicates on pools and extrema *)

(** The point index of the iteration that follows [n] completed ones. *)
Definition index_after (n : nat) (i : Z) : Z := Nat.iter n (fun j => I32.add j 1) i.

(** Buffer offsets written by [n] iterations of an inner loop from [i]. *)
Fixpoint written (n : nat) (i : Z) : list nat :=
  match n with
  | O => []
  | S n' => Z.to_nat (I32.mul i 2) :: Z.to_nat (I32.add (I32.mul i 2) 1)
            :: written n' (I32.add i 1)
  end.

(** Pool slots visited by [n] iterations of an outer loop from [s]. *)
Fixpoint visited (n : nat) (s : Z) : list nat :=
  match n with
  | O => []
  | S n' => Z.to_nat s :: visited n' (I32.add s 1)
  end.

(** Two buffers of one length that agree at every offset outside [W]. *)
Definition same_outside (W : list nat) (a b : buffer) : Prop :=
  length a = length b ∧ ∀ j, j ∉ W → a !! j = b !! j.

(** Two pools that can differ only in the slots [V], and there only at
    the offsets [W]. *)
Definition pool_same_outside (V W : list nat) (a b : pool) : Prop :=
  length a = length b ∧
  ∀ t, (t ∉ V → a !! t = b !! t) ∧
       (∀ x y, a !! t = Some x → b !! t = Some y → same_outside W x y).

(** The pool holds [numSubsets] buffers with room for [numPoints] points
    each. *)
Definition pool_fits (numSubsets numPoints : Z) (reuse : pool) : Prop :=
  numSubsets <= Z.of_nat (length reuse) ∧
  Forall (fun sets : buffer => 2 * numPoints <= Z.of_nat (length sets))
         (take (Z.to_nat numSubsets) reuse).

(** Array lengths are [i32] values. *)
Definition lengths_i32 (reuse : pool) : Prop :=
  Z.of_nat (length reuse) <= I32.max_signed ∧
  Forall (fun sets : buffer => Z.of_nat (length sets) <= I32.max_signed) reuse.

(** The slots [s] to [s + n - 1] hold buffers with room for [numPoints]
    points, of a length that is an [i32]. *)
Definition slots_fit (s : Z) (n : nat) (numPoints : Z) (reuse : pool) : Prop :=
  ∀ t (sets : buffer), (Z.to_nat s ≤ t < Z.to_nat s + n)%nat → reuse !! t = Some sets →
    2 * Z.of_nat (Z.to_nat numPoints) <= Z.of_nat (length sets) <= I32.max_signed.

Definition le0 (v : float) : Prop := SFleb v F32.zero = true.
Definition ge0 (v : float) : Prop := SFleb F32.zero v = true.

(** [xMin <= 0 <= xMax] and [yMin <= 0 <= yMax]. *)
Definition around_zero (ext : extrema) : Prop :=
  le0 (xMin ext) ∧ ge0 (xMax ext) ∧ le0 (yMin ext) ∧ ge0 (yMax ext).

Definition is_zero_or_nan (v : float) : bool :=
  match v with
  | S754_zero _ | S754_nan => true
  | _ => false
  end.

Definition is_finite (v : float) : bool :=
  match v with
  | S754_zero _ | S754_finite _ _ _ => true
  | _ => false
  end.

(** ** Concrete configurations *)

Module Sample.

(** A configuration vector with integral fields and the five ranges
    collapsed to single values [a], [b], [c], [d], [e]. *)
Definition settings (f0 f1 f2 scale inner outer a b c d e : Z) : list float :=
  F32.of_Z <$> [f0; f1; f2; scale; 0; inner; outer; a; a; b; b; c; c; d; d; e; e].

(** [Math.random] returning 0.25 at every call. *)
Definition quarter (c : nat) : float := Eval vm_compute in binary_normalize 53 1024 1 (-2) false.

(** [Math.random] returning 0.5 at every call. *)
Definition halves (c : nat) : float := F64.half.

(** A stand-in for [Math.log]; the samples keep [choice] below 0.75, so
    it is never applied. *)
Definition log_unused (x : float) : float := x.

(** Scale 100, no tunnel, [a = 1], [b = c = 0], [d = 9], [e = 1], with the
    three leading fields as named. *)
Definition level_3_2_4 : list float := settings 3 2 4 100 0 0 1 0 0 9 1.
Definition level_2_2_2 : list float := settings 2 2 2 100 0 0 1 0 0 9 1.
Definition level_1_1_1 : list float := settings 1 1 1 100 0 0 1 0 0 9 1.
Definition level_1_2_0 : list float := settings 1 2 0 100 0 0 1 0 0 9 1.

(** Two buffers of four entries, as allocated for [level_2_2_2]. *)
Definition fresh_2_4 : pool := replicate 2 (replicate 4 F32.c123).

End Sample.

(** ** Further definitions *)

(** The number of entries of every buffer of a pool. *)
Definition shape (reuse : pool) : list nat := length <$> reuse.

(** A value whose sign bit is clear, or NaN. *)
Definition sign_clear (v : float) : bool :=
  match v with
  | S754_zero s | S754_infinity s | S754_finite s _ _ => negb s
  | S754_nan => true
  end.

(** The point [(v, w)] is not outside the extrema. *)
Definition within (ext : extrema) (vw : float * float) : Prop :=
  F32.ltb vw.1 (xMin ext) = false ∧ F32.gtb vw.1 (xMax ext) = false ∧
  F32.ltb vw.2 (yMin ext) = false ∧ F32.gtb vw.2 (yMax ext) = false.

Section Orbit.

Variable Math_log : float -> float.

(** The point an inner loop holds after [k] iterations from [xy]. *)
Definition orbit (p : params) (choice : float) (k : nat) (xy : float * float)
    : float * float :=
  Nat.iter k (orbit_step Math_log p choice) xy.

(** The extrema after the iterations 0 to [n - 1] from [xy]. *)
Fixpoint orbit_extrema (p : params) (choice : float) (n : nat)
    (xy : float * float) (ext : extrema) : extrema :=
  match n with
  | O => ext
  | S n' => orbit_extrema p choice n' (orbit_step Math_log p choice xy)
              (track ext xy.1 xy.2)
  end.

(** [build] calls in sequence, each with its own settings and draws. *)
Fixpoint after_calls (calls : list (list float * (nat -> float)))
    (lastData : option pool) : option (option pool) :=
  match calls with
  | [] => Some lastData
  | (levelSettings, draws) :: calls' =>
      data ← build Math_log draws levelSettings 0 lastData;
      after_calls calls' (Some data)
  end.

End Orbit.

(** Neither upper bound is below its lower bound. *)
Definition ordered (ext : extrema) : Prop :=
  F32.ltb (xMax ext) (xMin ext) = false ∧ F32.ltb (yMax ext) (yMin ext) = false.

Section LevelDefinitions.

Variable Math_log : float -> float.
Variable Math_random : nat -> float.

(** The start point of subset [s], the first draw of which is call [c]
    of [Math.random]. *)
Definition seed_of (s : Z) (c : nat) : float * float :=
  (subset_seed s (irnd Math_random c), subset_seed s (irnd Math_random (S c))).

(** The start point of the subset number [s] of a level. *)
Definition level_seed (s : nat) : float * float :=
  seed_of (Z.of_nat s) (6 + 2 * s).

(** The extrema after [n] subsets of [numPoints] iterations each, from
    subset [s] on. *)
Fixpoint subsets_extrema (p : params) (choice : float) (numPoints n : nat)
    (s : Z) (c : nat) (ext : extrema) : extrema :=
  match n with
  | O => ext
  | S n' => subsets_extrema p choice numPoints n' (s + 1) (S (S c))
              (orbit_extrema Math_log p choice numPoints (seed_of s c) ext)
  end.

(** The extrema of a level. *)
Definition level_extrema (levelSettings : list float) (numSubsets numPoints : nat)
    : extrema :=
  subsets_extrema (draw_params Math_random levelSettings) (irnd Math_random 5)
    numPoints numSubsets 0 6 initial_extrema.

(** The point written for point [k] of subset [s], before the
    normalisation pass. *)
Definition level_point (levelSettings : list float) (s k : nat) : float * float :=
  orbit Math_log (draw_params Math_random levelSettings) (irnd Math_random 5)
    (S k) (level_seed s).

End LevelDefinitions.

(** * Properties *)

(** ** Checked array accesses *)

Lemma arr_set_Some {A} (a a' : list A) i v :
  arr_set a i v = Some a' →
  0 <= i < Z.of_nat (length a) ∧ a' = <[Z.to_nat i := v]> a.
Proof. unfold arr_set. case_decide; [|done]. intros [= <-]. done. Qed.

Lemma arr_set_length {A} (a a' : list A) i v :
  arr_set a i v = Some a' → length a' = length a.
Proof. intros [_ ->]%arr_set_Some. apply length_insert. Qed.

Lemma arr_set_in_range {A} (a : list A) i v :
  0 <= i < Z.of_nat (length a) → arr_set a i v = Some (<[Z.to_nat i := v]> a).
Proof. intros H. unfold arr_set. by rewrite decide_True. Qed.

Lemma arr_get_in_range {A} (a : list A) i :
  0 <= i < Z.of_nat (length a) → is_Some (arr_get a i).
Proof.
  intros H. unfold arr_get. rewrite decide_True by lia.
  apply lookup_lt_is_Some. lia.
Qed.

Lemma arr_get_Some {A} (a : list A) i v :
  arr_get a i = Some v → 0 <= i < Z.of_nat (length a) ∧ a !! Z.to_nat i = Some v.
Proof.
  unfold arr_get. case_decide; [|done]. intros Hv. split; [|done].
  apply lookup_lt_Some in Hv. lia.
Qed.

(** The success of a write depends on the length of the array only. *)
Lemma arr_set_same_length {A} (a b : list A) i v :
  length a = length b →
  arr_set a i v = None ∧ arr_set b i v = None ∨
  0 <= i < Z.of_nat (length a) ∧
  arr_set a i v = Some (<[Z.to_nat i := v]> a) ∧
  arr_set b i v = Some (<[Z.to_nat i := v]> b).
Proof.
  intros Hl. unfold arr_set. rewrite <- Hl.
  case_decide; [right | left]; done.
Qed.

(** ** The generation pass overwrites what it visits *)

Lemma same_outside_nil a b : same_outside [] a b → a = b.
Proof.
  intros [_ H]. apply list_eq. intros j. apply H. apply not_elem_of_nil.
Qed.

Lemma same_outside_refl W a : same_outside W a a.
Proof. by split. Qed.

Lemma same_outside_insert W a b j v :
  same_outside (j :: W) a b → (j < length a)%nat →
  same_outside W (<[j := v]> a) (<[j := v]> b).
Proof.
  intros [Hl H] Hj. split; [by rewrite !length_insert|].
  intros k Hk. destruct (decide (k = j)) as [->|Hne].
  - rewrite !list_lookup_insert_eq; [done | lia | lia].
  - rewrite !list_lookup_insert_ne by done. apply H. set_solver.
Qed.

Lemma same_outside_weaken W W' a b :
  W ⊆ W' → same_outside W a b → same_outside W' a b.
Proof. intros Hsub [Hl H]. split; [done|]. intros j Hj. apply H. set_solver. Qed.

Lemma same_outside_sym W a b : same_outside W a b → same_outside W b a.
Proof. intros [Hl H]. split; [done|]. intros j Hj. symmetry. by apply H. Qed.

Lemma same_outside_trans W a b c :
  same_outside W a b → same_outside W b c → same_outside W a c.
Proof.
  intros [Hl H] [Hl' H']. split; [congruence|].
  intros j Hj. rewrite H by done. by apply H'.
Qed.

Lemma norm_points_frame k n : ∀ i a a',
  norm_points k n i a = Some a' → same_outside (written n i) a' a.
Proof.
  induction n as [|n IH]; intros i a a' H.
  - cbn in H. injection H as <-. apply same_outside_refl.
  - cbn [norm_points] in H.
    destruct (arr_get a (I32.mul i 2)) as [xr|]; [|done]. cbn in H.
    destruct (arr_get a (I32.add (I32.mul i 2) 1)) as [yr|]; [|done]. cbn in H.
    destruct (rescale k xr yr) as [x y].
    destruct (arr_set a _ _) as [a1|] eqn:H1; [|done]. cbn in H.
    destruct (arr_set a1 _ _) as [a2|] eqn:H2; [|done]. cbn in H.
    apply IH in H.
    apply arr_set_Some in H1 as [_ ->]. apply arr_set_Some in H2 as [_ ->].
    eapply same_outside_trans.
    + eapply same_outside_weaken; [|exact H]. cbn. set_solver.
    + split; [by rewrite !length_insert|].
      intros j Hj. cbn in Hj.
      rewrite !list_lookup_insert_ne; [done | set_solver | set_solver].
Qed.

Lemma pool_same_outside_nil W a b : pool_same_outside [] W a b → a = b.
Proof.
  intros [_ H]. apply list_eq. intros t. apply H. apply not_elem_of_nil.
Qed.

Lemma pool_same_outside_refl V W a : pool_same_outside V W a a.
Proof.
  split; [done|]. intros t. split; [done|].
  intros x y Hx Hy. assert (x = y) as -> by congruence. apply same_outside_refl.
Qed.

Lemma pool_same_outside_sym V W a b :
  pool_same_outside V W a b → pool_same_outside V W b a.
Proof.
  intros [Hl H]. split; [done|]. intros t. destruct (H t) as [H1 H2]. split.
  - intros Ht. symmetry. by apply H1.
  - intros x y Hx Hy. apply same_outside_sym. by apply H2.
Qed.

Lemma pool_same_outside_trans V W a b c :
  pool_same_outside V W a b → pool_same_outside V W b c → pool_same_outside V W a c.
Proof.
  intros [Hl H] [Hl' H']. split; [congruence|]. intros t.
  destruct (H t) as [H1 H2], (H' t) as [H1' H2']. split.
  - intros Ht. rewrite H1 by done. by apply H1'.
  - intros x z Hx Hz.
    destruct (lookup_lt_is_Some_2 b t) as [y Hy].
    { rewrite <- Hl. by eapply lookup_lt_Some. }
    eapply same_outside_trans; [by eapply H2 | by eapply H2'].
Qed.

Lemma pool_same_outside_weaken V V' W a b :
  V ⊆ V' → pool_same_outside V W a b → pool_same_outside V' W a b.
Proof.
  intros Hsub [Hl H]. split; [done|]. intros t. destruct (H t) as [H1 H2].
  split; [|done]. intros Ht. apply H1. set_solver.
Qed.

(** Replacing the buffer of one slot by one that differs at the offsets
    [W] only. *)
Lemma pool_same_outside_insert V W (a : pool) (t : nat) (x x' : buffer) :
  a !! t = Some x → same_outside W x' x →
  pool_same_outside (t :: V) W (<[t := x']> a) a.
Proof.
  intros Hx Hxx'. split; [by rewrite length_insert|]. intros u. split.
  - intros Hu. rewrite list_lookup_insert_ne; [done | set_solver].
  - intros y z Hy Hz. destruct (decide (u = t)) as [->|Hne].
    + rewrite list_lookup_insert_eq in Hy by by eapply lookup_lt_Some.
      by simplify_eq.
    + rewrite list_lookup_insert_ne in Hy by done.
      assert (y = z) as -> by congruence. apply same_outside_refl.
Qed.

Lemma norm_subsets_frame k numPoints n : ∀ s a a',
  norm_subsets k numPoints n s a = Some a' →
  pool_same_outside (visited n s) (written (Z.to_nat numPoints) 0) a' a.
Proof.
  induction n as [|n IH]; intros s a a' H.
  - cbn in H. injection H as <-. apply pool_same_outside_refl.
  - cbn [norm_subsets] in H.
    destruct (arr_get a s) as [sets|] eqn:Hs; [|done]. cbn in H.
    destruct (norm_points _ _ _ _) as [sets1|] eqn:Hp; [|done].
    cbn in H. apply IH in H. apply norm_points_frame in Hp.
    apply arr_get_Some in Hs as [_ Hs].
    eapply pool_same_outside_trans.
    + eapply pool_same_outside_weaken; [|exact H]. cbn. set_solver.
    + cbn [visited]. by eapply pool_same_outside_insert.
Qed.

Section PointsOverwrite.

Variable Math_log : float -> float.

Lemma gen_body_overwrite W p choice i x y ext a b :
  same_outside (written 1 i ++ W) a b →
  gen_body Math_log p choice i x y ext a = None ∧
  gen_body Math_log p choice i x y ext b = None ∨
  ∃ x' y' ext' a' b',
    gen_body Math_log p choice i x y ext a = Some (x', y', ext', a') ∧
    gen_body Math_log p choice i x y ext b = Some (x', y', ext', b') ∧
    same_outside W a' b'.
Proof.
  intros Hab. unfold gen_body. cbn [written app] in Hab.
  set (y' := F32.sub (al p) x).
  set (x' := F32.add _ (el p)).
  destruct (arr_set_same_length a b (I32.add (I32.mul i 2) 1) y' (proj1 Hab))
    as [[-> ->]|(Hi & -> & ->)]; [by left|]. cbn.
  set (k := Z.to_nat (I32.add (I32.mul i 2) 1)) in *.
  assert (same_outside (Z.to_nat (I32.mul i 2) :: W) (<[k := y']> a) (<[k := y']> b)) as Hab'.
  { apply same_outside_insert; [|lia].
    eapply same_outside_weaken; [|exact Hab]. set_solver. }
  destruct (arr_set_same_length _ _ (I32.mul i 2) x' (proj1 Hab'))
    as [[-> ->]|(Hi' & -> & ->)]; [by left|]. cbn.
  right. eexists _, _, _, _, _. split; [done|]. split; [done|].
  apply same_outside_insert; [done|]. lia.
Qed.

Lemma gen_body_frame p choice i x y ext a x' y' ext' a' :
  gen_body Math_log p choice i x y ext a = Some (x', y', ext', a') →
  same_outside (written 1 i) a' a.
Proof.
  unfold gen_body. intros H.
  destruct (arr_set a _ _) as [a1|] eqn:H1; [|done]. cbn in H.
  destruct (arr_set a1 _ _) as [a2|] eqn:H2; [|done]. cbn in H.
  injection H as <- <- <- <-.
  apply arr_set_Some in H1 as [_ ->]. apply arr_set_Some in H2 as [_ ->].
  split; [by rewrite !length_insert|].
  intros j Hj. cbn in Hj. rewrite !list_lookup_insert_ne; [done | set_solver | set_solver].
Qed.

Lemma gen_points_frame p choice n : ∀ i x y ext a x' y' ext' a',
  gen_points Math_log p choice n i x y ext a = Some (x', y', ext', a') →
  same_outside (written n i) a' a.
Proof.
  induction n as [|n IH]; intros i x y ext a x' y' ext' a' H.
  - cbn in H. injection H as <- <- <- <-. apply same_outside_refl.
  - cbn [gen_points] in H.
    destruct (gen_body _ _ _ _ _ _ _ _) as [[[[x1 y1] ext1] a1]|] eqn:Hb; [|done].
    cbn in H. apply IH in H. apply gen_body_frame in Hb.
    eapply same_outside_trans.
    + eapply same_outside_weaken; [|exact H]. cbn. set_solver.
    + eapply same_outside_weaken; [|exact Hb]. cbn. set_solver.
Qed.

Lemma gen_points_overwrite p choice n : ∀ i x y ext a b,
  same_outside (written n i) a b →
  gen_points Math_log p choice n i x y ext a = gen_points Math_log p choice n i x y ext b.
Proof.
  induction n as [|n IH]; intros i x y ext a b Hab.
  - cbn. by rewrite (same_outside_nil a b).
  - cbn [gen_points].
    destruct (gen_body_overwrite (written n (I32.add i 1)) p choice i x y ext a b)
      as [[-> ->]|(x' & y' & ext' & a' & b' & -> & -> & Hab')]; [done..|].
    cbn. by apply IH.
Qed.

End PointsOverwrite.

Section PoolOverwrite.

Variable Math_log : float -> float.
Variable Math_random : nat -> float.

Lemma gen_subsets_frame p choice numPoints n : ∀ s c ext a ext' a',
  gen_subsets Math_log Math_random p choice numPoints n s c ext a = Some (ext', a') →
  pool_same_outside (visited n s) (written (Z.to_nat numPoints) 0) a' a.
Proof.
  induction n as [|n IH]; intros s c ext a ext' a' H.
  - cbn in H. injection H as <- <-. apply pool_same_outside_refl.
  - cbn [gen_subsets] in H.
    destruct (arr_get a s) as [sets|] eqn:Hs; [|done]. cbn in H.
    destruct (gen_points _ _ _ _ _ _ _ _ _) as [[[[x1 y1] ext1] sets1]|] eqn:Hp; [|done].
    cbn in H. apply IH in H. apply gen_points_frame in Hp.
    apply arr_get_Some in Hs as [_ Hs].
    eapply pool_same_outside_trans.
    + eapply pool_same_outside_weaken; [|exact H]. cbn. set_solver.
    + cbn [visited]. by eapply pool_same_outside_insert.
Qed.

Lemma gen_subsets_overwrite p choice numPoints n : ∀ s c ext a b,
  pool_same_outside (visited n s) (written (Z.to_nat numPoints) 0) a b →
  gen_subsets Math_log Math_random p choice numPoints n s c ext a
  = gen_subsets Math_log Math_random p choice numPoints n s c ext b.
Proof.
  induction n as [|n IH]; intros s c ext a b Hab.
  - cbn. by rewrite (pool_same_outside_nil _ a b Hab).
  - cbn [gen_subsets]. destruct Hab as [Hl H].
    unfold arr_get. case_decide as Hs; [|done].
    set (t := Z.to_nat s) in *.
    destruct (a !! t) as [x1|] eqn:Ha; destruct (b !! t) as [y1|] eqn:Hb; cbn.
    + rewrite (gen_points_overwrite Math_log p choice _ 0 _ _ ext x1 y1)
        by (by eapply (proj2 (H t))).
      destruct (gen_points _ _ _ _ _ _ _ _ _) as [[[[x2 y2] ext2] sets2]|]; [|done].
      cbn. apply IH. split; [by rewrite !length_insert|]. intros u.
      destruct (decide (u = t)) as [->|Hne].
      * apply lookup_lt_Some in Ha, Hb.
        rewrite !list_lookup_insert_eq by done. split; [done|].
        intros ? ? [= <-] [= <-]. apply same_outside_refl.
      * rewrite !list_lookup_insert_ne by done. destruct (H u) as [H1 H2].
        split; [|done]. intros Hu. apply H1. cbn. set_solver.
    + apply lookup_lt_Some in Ha. apply lookup_ge_None in Hb. lia.
    + apply lookup_lt_Some in Hb. apply lookup_ge_None in Ha. lia.
    + done.
Qed.

(** What a call leaves outside the slots and offsets it visits. *)
Lemma FractalGeometry_frame levelSettings id a a' :
  FractalGeometry Math_log Math_random levelSettings id a = Some a' →
  ∃ numSubsets numPoints,
    ifloor (F64.of_f32 (levelSettings !!! 1%nat)) = Some numSubsets ∧
    ifloor (F64.of_f32 (levelSettings !!! 2%nat)) = Some numPoints ∧
    pool_same_outside (visited (Z.to_nat numSubsets) 0)
      (written (Z.to_nat numPoints) 0) a' a.
Proof.
  unfold FractalGeometry, generate. intros H.
  destruct (ifloor (F64.of_f32 (levelSettings !!! 1%nat))) as [ns|]; [|done].
  destruct (ifloor (F64.of_f32 (levelSettings !!! 2%nat))) as [np|]; [|done].
  cbn in H.
  destruct (gen_subsets _ _ _ _ _ _ _ _ _ _) as [[ext a1]|] eqn:Hg; [|done].
  cbn in H. exists ns, np. split; [done|]. split; [done|].
  apply gen_subsets_frame in Hg. apply norm_subsets_frame in H.
  by eapply pool_same_outside_trans.
Qed.

End PoolOverwrite.

Section Determinism.

Variable Math_log : float -> float.

(** The result of a call does not depend on what the visited part of the
    pool held before. *)
Lemma FractalGeometry_overwrite draws levelSettings id numSubsets numPoints a b :
  ifloor (F64.of_f32 (levelSettings !!! 1%nat)) = Some numSubsets →
  ifloor (F64.of_f32 (levelSettings !!! 2%nat)) = Some numPoints →
  pool_same_outside (visited (Z.to_nat numSubsets) 0)
    (written (Z.to_nat numPoints) 0) a b →
  FractalGeometry Math_log draws levelSettings id a
  = FractalGeometry Math_log draws levelSettings id b.
Proof.
  intros Hs Hp Hab. unfold FractalGeometry, generate. rewrite Hs, Hp. cbn.
  by rewrite (gen_subsets_overwrite Math_log draws _ _ _ _ _ _ _ a b).
Qed.

(** A pool left by an earlier call behaves as a new one. *)
Lemma build_reuse levelSettings draws draws' id id' data :
  build Math_log draws' levelSettings id' None = Some data →
  build Math_log draws levelSettings id (Some data)
  = build Math_log draws levelSettings id None.
Proof.
  unfold build, myBuild, acquire. intros H.
  destruct (ifloor (F64.of_f32 (levelSettings !!! 0%nat))) as [n0|]; [|done].
  destruct (ifloor (F64.of_f32 (levelSettings !!! 1%nat))) as [n1|] eqn:H1; [|done].
  cbn in H |- *.
  destruct (new_pool n0 (I32.mul n1 2)) as [fresh|]; [|done]. cbn in H |- *.
  apply FractalGeometry_frame in H as (ns & np & Hs & Hp & Hfr).
  by eapply FractalGeometry_overwrite.
Qed.

End Determinism.

(** ** No access is out of range in a pool that fits *)

Lemma I32_wrap_small n : I32.min_signed <= n <= I32.max_signed → I32.wrap n = n.
Proof.
  unfold I32.wrap, I32.min_signed, I32.max_signed. intros H.
  rewrite Z.mod_small; lia.
Qed.

Lemma I32_mul_2 i : 0 <= i → 2 * i + 1 <= I32.max_signed → I32.mul i 2 = 2 * i.
Proof.
  intros H0 H1. unfold I32.mul. rewrite I32_wrap_small; [lia|].
  unfold I32.min_signed, I32.max_signed in *. lia.
Qed.

Lemma I32_add_1 i : 0 <= i → i + 1 <= I32.max_signed → I32.add i 1 = i + 1.
Proof.
  intros H0 H1. unfold I32.add. apply I32_wrap_small.
  unfold I32.min_signed, I32.max_signed in *. lia.
Qed.

Section InBounds.

Variable Math_log : float -> float.
Variable Math_random : nat -> float.

Lemma gen_points_total p choice n : ∀ i x y ext (a : buffer),
  0 <= i → 2 * (i + Z.of_nat n) <= Z.of_nat (length a) → Z.of_nat (length a) <= I32.max_signed →
  is_Some (gen_points Math_log p choice n i x y ext a).
Proof.
  induction n as [|n IH]; intros i x y ext a Hi Hn Hmax; [by eexists|].
  cbn [gen_points]. unfold gen_body.
  rewrite (I32_mul_2 i), (I32_add_1 (2 * i)) by lia.
  rewrite arr_set_in_range by lia. cbn.
  rewrite arr_set_in_range by (rewrite length_insert; lia). cbn.
  rewrite (I32_add_1 i) by lia.
  apply IH; rewrite ?length_insert; lia.
Qed.

Lemma norm_points_total k n : ∀ i (a : buffer),
  0 <= i → 2 * (i + Z.of_nat n) <= Z.of_nat (length a) → Z.of_nat (length a) <= I32.max_signed →
  is_Some (norm_points k n i a).
Proof.
  induction n as [|n IH]; intros i a Hi Hn Hmax; [by eexists|].
  cbn [norm_points].
  rewrite (I32_mul_2 i), (I32_add_1 (2 * i)) by lia.
  destruct (arr_get_in_range a (2 * i)) as [xr ->]; [lia|].
  destruct (arr_get_in_range a (2 * i + 1)) as [yr ->]; [lia|]. cbn.
  destruct (rescale k xr yr) as [x y].
  rewrite arr_set_in_range by lia. cbn.
  rewrite arr_set_in_range by (rewrite length_insert; lia). cbn.
  rewrite (I32_add_1 i) by lia.
  apply IH; rewrite ?length_insert; lia.
Qed.

Lemma slots_fit_step s n numPoints (a : pool) (sets sets' : buffer) :
  0 <= s → a !! Z.to_nat s = Some sets → length sets' = length sets →
  slots_fit s (S n) numPoints a →
  slots_fit (s + 1) n numPoints (<[Z.to_nat s := sets']> a).
Proof.
  intros Hs Ha Hl Hfit t b Ht Hb.
  rewrite list_lookup_insert_ne in Hb by lia.
  apply (Hfit t b); [lia | done].
Qed.

(** The frame of a pass keeps the length of every buffer. *)
Lemma slots_fit_same_outside V W s n numPoints (a a' : pool) :
  pool_same_outside V W a' a → slots_fit s n numPoints a → slots_fit s n numPoints a'.
Proof.
  intros [Hl H] Hfit t b Ht Hb.
  destruct (lookup_lt_is_Some_2 a t) as [b0 Hb0].
  { rewrite <- Hl. by eapply lookup_lt_Some. }
  destruct (proj2 (H t) b b0 Hb Hb0) as [-> _]. by eapply Hfit.
Qed.

Lemma gen_subsets_total p choice numPoints n : ∀ s c ext (a : pool),
  0 <= s → s + Z.of_nat n <= Z.of_nat (length a) → Z.of_nat (length a) <= I32.max_signed →
  slots_fit s n numPoints a →
  is_Some (gen_subsets Math_log Math_random p choice numPoints n s c ext a).
Proof.
  induction n as [|n IH]; intros s c ext a Hs Hn Hmax Hfit; [by eexists|].
  cbn [gen_subsets].
  destruct (arr_get_in_range a s) as [sets Hsets]; [lia|]. rewrite Hsets. cbn.
  apply arr_get_Some in Hsets as [_ Hsets].
  destruct (Hfit (Z.to_nat s) sets) as [Hlo Hhi]; [lia | done |].
  destruct (gen_points_total p choice (Z.to_nat numPoints) 0
              (subset_seed s (irnd Math_random c))
              (subset_seed s (irnd Math_random (S c))) ext sets)
    as [[[[x1 y1] ext1] sets1] Hp]; [lia | lia | lia |].
  rewrite Hp. cbn. rewrite (I32_add_1 s) by lia.
  apply gen_points_frame in Hp as [Hl _].
  apply IH; rewrite ?length_insert; [lia | lia | lia |].
  by eapply slots_fit_step.
Qed.

Lemma norm_subsets_total k numPoints n : ∀ s (a : pool),
  0 <= s → s + Z.of_nat n <= Z.of_nat (length a) → Z.of_nat (length a) <= I32.max_signed →
  slots_fit s n numPoints a →
  is_Some (norm_subsets k numPoints n s a).
Proof.
  induction n as [|n IH]; intros s a Hs Hn Hmax Hfit; [by eexists|].
  cbn [norm_subsets].
  destruct (arr_get_in_range a s) as [sets Hsets]; [lia|]. rewrite Hsets. cbn.
  apply arr_get_Some in Hsets as [_ Hsets].
  destruct (Hfit (Z.to_nat s) sets) as [Hlo Hhi]; [lia | done |].
  destruct (norm_points_total k (Z.to_nat numPoints) 0 sets)
    as [sets1 Hp]; [lia | lia | lia |].
  rewrite Hp. cbn. rewrite (I32_add_1 s) by lia.
  apply norm_points_frame in Hp as [Hl _].
  apply IH; rewrite ?length_insert; [lia | lia | lia |].
  by eapply slots_fit_step.
Qed.

Lemma pool_fits_slots numSubsets numPoints (reuse : pool) :
  lengths_i32 reuse → pool_fits numSubsets numPoints reuse →
  slots_fit 0 (Z.to_nat numSubsets) numPoints reuse.
Proof.
  intros [_ Hmax] [_ Hfit] t sets Ht Hsets.
  rewrite Forall_lookup in Hmax, Hfit. split.
  - assert (take (Z.to_nat numSubsets) reuse !! t = Some sets) as Htake.
    { rewrite lookup_take_lt; [done | lia]. }
    specialize (Hfit t sets Htake). cbn in Hfit.
    pose proof (Hmax t sets Hsets). lia.
  - by apply (Hmax t sets).
Qed.

Lemma FractalGeometry_total levelSettings id numSubsets numPoints (reuse : pool) :
  ifloor (F64.of_f32 (levelSettings !!! 1%nat)) = Some numSubsets →
  ifloor (F64.of_f32 (levelSettings !!! 2%nat)) = Some numPoints →
  lengths_i32 reuse → pool_fits numSubsets numPoints reuse →
  is_Some (FractalGeometry Math_log Math_random levelSettings id reuse).
Proof.
  intros Hs Hp Hmax Hfit. unfold FractalGeometry, generate. rewrite Hs, Hp. cbn.
  pose proof (pool_fits_slots _ _ _ Hmax Hfit) as Hslots.
  destruct Hmax as [Hmax _]. destruct Hfit as [Hlen _].
  destruct (gen_subsets_total (draw_params Math_random levelSettings) (irnd Math_random 5)
              numPoints (Z.to_nat numSubsets) 0 6 initial_extrema reuse)
    as [[ext a1] Hg]; [lia | lia | lia | done |].
  rewrite Hg. cbn. apply gen_subsets_frame in Hg.
  pose proof (slots_fit_same_outside _ _ _ _ _ _ _ Hg Hslots) as Hslots1.
  destruct Hg as [Hl _].
  apply norm_subsets_total; [lia | lia | lia | done].
Qed.

End InBounds.

(** ** The branch is selected once *)

Section Branch.

Variable Math_log : float -> float.
Variable Math_random : nat -> float.

Lemma iter_z_branch p choice x :
  iter_z Math_log p choice x = branch_z Math_log (select_branch choice) p x.
Proof.
  unfold iter_z, branch_z, select_branch.
  destruct (F32.ltb choice F32.half); [done|].
  by destruct (F32.ltb choice F32.c0_75).
Qed.

Lemma gen_points_branch p choice n : ∀ i x y ext a,
  gen_points Math_log p choice n i x y ext a
  = branch_points Math_log (select_branch choice) p n i x y ext a.
Proof.
  induction n as [|n IH]; intros i x y ext a; [done|].
  cbn [gen_points branch_points]. unfold gen_body. rewrite iter_z_branch.
  destruct (arr_set a _ _) as [a1|]; [|done]. cbn.
  destruct (arr_set a1 _ _) as [a2|]; [|done]. cbn.
  apply IH.
Qed.

Lemma gen_subsets_branch p choice numPoints n : ∀ s c ext a,
  gen_subsets Math_log Math_random p choice numPoints n s c ext a
  = branch_subsets Math_log Math_random (select_branch choice) p numPoints n s c ext a.
Proof.
  induction n as [|n IH]; intros s c ext a; [done|].
  cbn [gen_subsets branch_subsets].
  destruct (arr_get a s) as [sets|]; [|done]. cbn.
  rewrite gen_points_branch.
  destruct (branch_points _ _ _ _ _ _ _ _ _) as [[[[x1 y1] ext1] sets1]|]; [|done].
  cbn. apply IH.
Qed.

End Branch.

(** ** Extrema *)

Lemma ltb_le0 v lo : SFltb v lo = true → le0 lo → le0 v.
Proof.
  unfold le0, SFleb, SFltb, F32.zero.
  destruct v as [[]|[]| |[] ? ?], lo as [[]|[]| |[] ? ?]; cbn; done.
Qed.

Lemma gtb_ge0 v hi : SFltb hi v = true → ge0 hi → ge0 v.
Proof.
  unfold ge0, SFleb, SFltb, F32.zero.
  destruct v as [[]|[]| |[] ? ?], hi as [[]|[]| |[] ? ?]; cbn; done.
Qed.

Lemma widen_around_zero lo hi v :
  le0 lo → ge0 hi → le0 (widen lo hi v).1 ∧ ge0 (widen lo hi v).2.
Proof.
  intros Hlo Hhi. unfold widen, F32.ltb, F32.gtb.
  destruct (SFltb v lo) eqn:E1; cbn.
  - split; [by eapply ltb_le0 | done].
  - destruct (SFltb hi v) eqn:E2; cbn; [|done].
    split; [done | by eapply gtb_ge0].
Qed.

Lemma track_around_zero ext x y : around_zero ext → around_zero (track ext x y).
Proof.
  intros (H1 & H2 & H3 & H4). unfold track.
  pose proof (widen_around_zero (xMin ext) (xMax ext) x H1 H2) as Hx.
  pose proof (widen_around_zero (yMin ext) (yMax ext) y H3 H4) as Hy.
  destruct (widen (xMin ext) _ x), (widen (yMin ext) _ y). cbn in *.
  unfold around_zero. cbn. tauto.
Qed.

Lemma I32_add_1_neq b : I32.add b 1 ≠ b.
Proof.
  unfold I32.add, I32.wrap. intros H.
  pose proof (Z.div_mod (b + 1 + 2 ^ 31) (2 ^ 32) ltac:(lia)) as Hdm.
  lia.
Qed.

Section Extrema.

Variable Math_log : float -> float.

(** What one pass of the loop body does. *)
Lemma gen_body_result p choice i x y ext a x' y' ext' a' :
  gen_body Math_log p choice i x y ext a = Some (x', y', ext', a') →
  ext' = track ext x y ∧
  (x', y') = orbit_step Math_log p choice (x, y) ∧
  arr_get a' (I32.mul i 2) = Some x' ∧
  arr_get a' (I32.add (I32.mul i 2) 1) = Some y'.
Proof.
  unfold gen_body, orbit_step. intros H.
  destruct (arr_set a _ _) as [a1|] eqn:H1; [|done]. cbn in H.
  destruct (arr_set a1 _ _) as [a2|] eqn:H2; [|done]. cbn in H.
  injection H as <- <- <- <-.
  apply arr_set_Some in H1 as [R1 ->]. apply arr_set_Some in H2 as [R2 ->].
  rewrite length_insert in R2.
  split; [done|]. split; [done|]. unfold arr_get.
  rewrite !decide_True by lia. split.
  - rewrite list_lookup_insert_eq; [done|]. rewrite length_insert. lia.
  - rewrite list_lookup_insert_ne.
    + rewrite list_lookup_insert_eq; [done | lia].
    + pose proof (I32_add_1_neq (I32.mul i 2)). lia.
Qed.

Lemma gen_points_around_zero p choice n : ∀ i x y ext a x' y' ext' a',
  around_zero ext →
  gen_points Math_log p choice n i x y ext a = Some (x', y', ext', a') →
  around_zero ext'.
Proof.
  induction n as [|n IH]; intros i x y ext a x' y' ext' a' Hext H.
  - cbn in H. by injection H as <- <- <- <-.
  - cbn [gen_points] in H.
    destruct (gen_body _ _ _ _ _ _ _ _) as [[[[x1 y1] ext1] a1]|] eqn:Hb; [|done].
    cbn in H. apply gen_body_result in Hb as (-> & _).
    eapply IH; [|exact H]. by apply track_around_zero.
Qed.

(** The last of [S n] iterations, split off. *)
Lemma gen_points_last p choice n : ∀ i x y ext a r,
  gen_points Math_log p choice (S n) i x y ext a = Some r →
  ∃ xn yn extn an,
    gen_points Math_log p choice n i x y ext a = Some (xn, yn, extn, an) ∧
    gen_body Math_log p choice (index_after n i) xn yn extn an = Some r.
Proof.
  induction n as [|n IH]; intros i x y ext a r H.
  - cbn in H |- *.
    destruct (gen_body _ _ _ _ _ _ _ _) as [[[[x1 y1] ext1] a1]|] eqn:Hb; [|done].
    cbn in H. eexists _, _, _, _. split; [done|]. by rewrite Hb.
  - remember (S n) as m. cbn [gen_points] in H. subst m.
    destruct (gen_body _ _ _ i _ _ _ _) as [[[[x1 y1] ext1] a1]|] eqn:Hb; [|done].
    cbn [mbind option_bind] in H.
    apply IH in H as (xn & yn & extn & an & Hn & Hlast).
    exists xn, yn, extn, an. split.
    + cbn [gen_points]. rewrite Hb. exact Hn.
    + unfold index_after in *. by rewrite Nat.iter_succ_r.
Qed.

End Extrema.

Section ExtremaOfLevel.

Variable Math_log : float -> float.
Variable Math_random : nat -> float.

Lemma gen_subsets_around_zero p choice numPoints n : ∀ s c ext a ext' a',
  around_zero ext →
  gen_subsets Math_log Math_random p choice numPoints n s c ext a = Some (ext', a') →
  around_zero ext'.
Proof.
  induction n as [|n IH]; intros s c ext a ext' a' Hext H.
  - cbn in H. by injection H as <- <-.
  - cbn [gen_subsets] in H.
    destruct (arr_get a s) as [sets|]; [|done]. cbn in H.
    destruct (gen_points _ _ _ _ _ _ _ _ _) as [[[[x1 y1] ext1] sets1]|] eqn:Hp; [|done].
    cbn in H. eapply IH; [|exact H]. by eapply gen_points_around_zero.
Qed.

End ExtremaOfLevel.

(** ** Parameter draws and subset seeds *)

Lemma draw_param_zero_draw lo hi :
  is_finite lo = true → is_finite (F32.sub hi lo) = true → F32.ltb hi lo = true →
  draw_param lo hi F32.zero = lo.
Proof.
  unfold draw_param, F32.ltb, SFltb. intros Hlo Hd Hlt.
  destruct lo as [sl|sl| |sl ml el]; try done.
  - (* lo is a zero: hi is negative and hi - lo is hi *)
    destruct hi as [sh|sh| |[] mh eh]; try done.
    by destruct sl.
  - destruct (F32.sub hi (S754_finite sl ml el)) as [sd|sd| |sd md ed]; try done.
Qed.

Lemma subset_seed_quotient s u : 0 <= s < 100 → is_zero_or_nan (subset_seed s u) = true.
Proof.
  intros Hs. unfold subset_seed, I32.div_s.
  rewrite Z.quot_small by lia.
  change (F64.of_i32 (I32.wrap 0)) with (S754_zero false).
  by destruct (F64.sub F64.half (F64.of_f32 u)) as [[]|[]| |[] ? ?].
Qed.

(** ** Allocation *)

Lemma alloc_buffers_filled n len :
  0 <= len → alloc_buffers n len = Some (replicate n (replicate (Z.to_nat len) F32.c123)).
Proof.
  intros Hlen. induction n as [|n IH]; [done|].
  cbn [alloc_buffers]. unfold new_Float32Array. rewrite decide_True by done.
  cbn. rewrite IH. cbn. unfold fill. by rewrite length_replicate.
Qed.

(** A first call sizes the pool from the fields 0 and 1. *)
Lemma acquire_first_call levelSettings n0 n1 :
  ifloor (F64.of_f32 (levelSettings !!! 0%nat)) = Some n0 →
  ifloor (F64.of_f32 (levelSettings !!! 1%nat)) = Some n1 →
  0 <= n0 → 0 <= I32.mul n1 2 →
  acquire levelSettings None
  = Some (replicate (Z.to_nat n0) (replicate (Z.to_nat (I32.mul n1 2)) F32.c123)).
Proof.
  intros H0 H1 Hn0 Hn1. unfold acquire, new_pool. rewrite H0, H1. cbn.
  rewrite decide_True by done. by apply alloc_buffers_filled.
Qed.

(** A later call keeps the pool it finds, whatever the fields are. *)
Lemma acquire_later_call levelSettings n0 n1 (data : pool) :
  ifloor (F64.of_f32 (levelSettings !!! 0%nat)) = Some n0 →
  ifloor (F64.of_f32 (levelSettings !!! 1%nat)) = Some n1 →
  acquire levelSettings (Some data) = Some data.
Proof. intros H0 H1. unfold acquire. by rewrite H0, H1. Qed.

(** Each update of a bound moves it outwards or leaves it. *)
Lemma widen_outwards lo hi v :
  ((widen lo hi v).1 = lo ∨ F32.ltb (widen lo hi v).1 lo = true) ∧
  ((widen lo hi v).2 = hi ∨ F32.ltb hi (widen lo hi v).2 = true).
Proof.
  unfold widen, F32.gtb, F32.ltb.
  destruct (SFltb v lo) eqn:E1; cbn [fst snd]; [auto|].
  destruct (SFltb hi v) eqn:E2; cbn [fst snd]; auto.
Qed.

(** * The claims *)

(** C1 (the code departs from it).  A first call is to allocate
    [subsetCount] buffers (field 1) of [2 * pointsPerSubset] entries
    (field 2).  With the fields [3; 2; 4] the allocation of [myBuild]
    yields three buffers of four entries, all 123: it sizes the pool from
    the fields 0 and 1 instead. *)
Theorem acquire_sizes_from_fields_0_1 :
  ifloor (F64.of_f32 (Sample.level_3_2_4 !!! 1%nat)) = Some 2 ∧
  ifloor (F64.of_f32 (Sample.level_3_2_4 !!! 2%nat)) = Some 4 ∧
  acquire Sample.level_3_2_4 None = Some (replicate 3 (replicate 4 F32.c123)).
Proof. repeat split; vm_compute; reflexivity. Qed.

(** C2 (the code departs from it).  After a call with two subsets of two
    points, a call with one subset of one point is to rebuild the pool as
    one buffer of two entries.  The second call returns the two buffers
    of four entries of the first call: a pool is never rebuilt. *)
Theorem pool_not_rebuilt :
  ∃ first second,
    build Sample.log_unused Sample.quarter Sample.level_2_2_2 0 None = Some first ∧
    ifloor (F64.of_f32 (Sample.level_1_1_1 !!! 1%nat)) = Some 1 ∧
    ifloor (F64.of_f32 (Sample.level_1_1_1 !!! 2%nat)) = Some 1 ∧
    build Sample.log_unused Sample.quarter Sample.level_1_1_1 0 (Some first) = Some second ∧
    length <$> second = [4; 4]%nat.
Proof. eexists _, _. repeat split; vm_compute; reflexivity. Qed.

(** C3 (the code departs from it).  The start point of subset [s] is to
    be [(s / 100) * (0.5 - u)] with the real quotient, a non-zero offset
    for [s >= 1].  The quotient of the code is the integer one, so for
    every [s] below 100 and every draw the start coordinate is a zero (or
    NaN), never a non-zero number. *)
Theorem subset_seed_is_zero_below_100 (s : Z) (u : float) :
  0 <= s < 100 → is_zero_or_nan (subset_seed s u) = true.
Proof. apply subset_seed_quotient. Qed.

Lemma subset_seed_is_zero_below_100_witness :
  0 <= 1 < 100 ∧ is_zero_or_nan (subset_seed 1 (irnd Sample.quarter 6)) = true.
Proof. split; [lia | apply (subset_seed_is_zero_below_100 1); lia]. Defined.

(** C4 (the code departs from it).  With two subsets of two points, scale
    100, no tunnel and distinct extrema on both axes, every coordinate is
    to lie within the scale (up to a small epsilon).  The x coordinate of
    the second point of the first subset comes out as -1500: the values
    written by the last iteration of a subset are not tracked. *)
Theorem last_point_leaves_the_square :
  ∃ ext raw data,
    generate Sample.log_unused Sample.quarter Sample.level_2_2_2 2 2 Sample.fresh_2_4
      = Some (ext, raw) ∧
    F32.eqb (xMax ext) (xMin ext) = false ∧
    F32.eqb (yMax ext) (yMin ext) = false ∧
    sc_factor (level_scaling Sample.level_2_2_2 ext) = F32.of_Z 100 ∧
    F32.gtb (sc_iRadius (level_scaling Sample.level_2_2_2 ext)) F32.zero = false ∧
    build Sample.log_unused Sample.quarter Sample.level_2_2_2 0 None = Some data ∧
    data !! 0%nat ≫= (λ sets, arr_get sets 2) = Some (F32.of_Z (-1500)).
Proof. eexists _, _, _. repeat split; vm_compute; reflexivity. Qed.

(** C5.  [choice] is one draw, the sixth call of [Math.random]; the
    generation pass, which tests it at every point, computes what the
    pass with the branch selected once before the loops computes. *)
Theorem choice_selects_one_branch Math_log Math_random levelSettings
    numSubsets numPoints reuse :
  generate Math_log Math_random levelSettings numSubsets numPoints reuse
  = generate_by_branch Math_log Math_random levelSettings numSubsets numPoints reuse.
Proof. unfold generate, generate_by_branch. apply gen_subsets_branch. Qed.

(** C6, as stated, fails: for the inverted range [(1, 0)] and the draw
    0.5 the parameter is 0.5, not the lower bound 1. *)
Lemma inverted_range_draw_is_not_min :
  F32.ltb F32.zero F32.one = true ∧
  draw_param F32.one F32.zero F32.half = F32.half ∧
  F32.eqb F32.half F32.one = false.
Proof. repeat split; vm_compute; reflexivity. Qed.

(** C6, amended.  For a finite range with [max < min] and a finite
    difference, the draw is the total function [min + u * (max - min)];
    it gives [min] when the draw [u] is 0. *)
Theorem inverted_range_zero_draw (lo hi : float) :
  is_finite lo = true → is_finite (F32.sub hi lo) = true → F32.ltb hi lo = true →
  draw_param lo hi F32.zero = lo.
Proof. apply draw_param_zero_draw. Qed.

Lemma inverted_range_zero_draw_witness : draw_param F32.one F32.zero F32.zero = F32.one.
Proof. apply (inverted_range_zero_draw F32.one F32.zero); vm_compute; reflexivity. Defined.

(** C7.  Whatever calls were made before with the same configuration, a
    call returns what a first call with the same draws returns: every
    entry that a call leaves in place still holds the fill value, and
    every other entry is written before the call reads it. *)
Theorem build_ignores_history Math_log levelSettings history draws id lastData :
  after_builds Math_log levelSettings history None = Some lastData →
  build Math_log draws levelSettings id lastData
  = build Math_log draws levelSettings id None.
Proof.
  assert (∀ h d d',
    (∀ r i, build Math_log r levelSettings i d = build Math_log r levelSettings i None) →
    after_builds Math_log levelSettings h d = Some d' →
    ∀ r i, build Math_log r levelSettings i d' = build Math_log r levelSettings i None)
    as Hinv.
  { induction h as [|r0 h IH]; intros d d' Hd Hrun r i.
    - cbn in Hrun. injection Hrun as <-. apply Hd.
    - cbn [after_builds] in Hrun.
      destruct (build Math_log r0 levelSettings 0 d) as [data|] eqn:Hb; [|done].
      cbn in Hrun. rewrite Hd in Hb.
      eapply IH; [|exact Hrun]. intros r' i'. by eapply build_reuse. }
  intros Hrun. by eapply Hinv.
Qed.

Lemma build_ignores_history_witness :
  ∃ data,
    after_builds Sample.log_unused Sample.level_2_2_2 [Sample.quarter] None
      = Some (Some data) ∧
    build Sample.log_unused Sample.halves Sample.level_2_2_2 0 (Some data)
    = build Sample.log_unused Sample.halves Sample.level_2_2_2 0 None.
Proof.
  eexists. split; [vm_compute; reflexivity|].
  apply (build_ignores_history Sample.log_unused Sample.level_2_2_2 [Sample.quarter]).
  vm_compute. reflexivity.
Defined.

(** C8 (the code departs from it).  With no point per subset a call is to
    return without trapping.  For the fields [1; 2; 0] the pool gets a
    single buffer and the generation loop traps on the missing slot of
    the second subset. *)
Theorem zero_points_trap :
  ifloor (F64.of_f32 (Sample.level_1_2_0 !!! 2%nat)) = Some 0 ∧
  acquire Sample.level_1_2_0 None = Some [replicate 4 F32.c123] ∧
  build Sample.log_unused Sample.quarter Sample.level_1_2_0 0 None = None.
Proof. repeat split; vm_compute; reflexivity. Qed.

(** C9.  In a pool with at least [floor (config[1])] buffers of at least
    [2 * floor (config[2])] entries each, no access of the two passes is
    out of range: the call returns.  The allocation of [myBuild] does not
    yield such a pool for every configuration. *)
Theorem accesses_in_bounds :
  (∀ Math_log Math_random levelSettings id numSubsets numPoints (reuse : pool),
     ifloor (F64.of_f32 (levelSettings !!! 1%nat)) = Some numSubsets →
     ifloor (F64.of_f32 (levelSettings !!! 2%nat)) = Some numPoints →
     lengths_i32 reuse → pool_fits numSubsets numPoints reuse →
     is_Some (FractalGeometry Math_log Math_random levelSettings id reuse)) ∧
  (∃ levelSettings numSubsets numPoints (reuse : pool),
     ifloor (F64.of_f32 (levelSettings !!! 1%nat)) = Some numSubsets ∧
     ifloor (F64.of_f32 (levelSettings !!! 2%nat)) = Some numPoints ∧
     acquire levelSettings None = Some reuse ∧
     ¬ pool_fits numSubsets numPoints reuse).
Proof.
  split.
  - intros. by eapply FractalGeometry_total.
  - exists Sample.level_3_2_4, 2, 4, (replicate 3 (replicate 4 F32.c123)).
    split; [by vm_compute|]. split; [by vm_compute|]. split; [by vm_compute|].
    intros [_ Hfit]. apply Forall_inv in Hfit. cbn in Hfit. lia.
Qed.

Lemma accesses_in_bounds_witness :
  is_Some (FractalGeometry Sample.log_unused Sample.quarter Sample.level_2_2_2 0
             Sample.fresh_2_4).
Proof.
  apply (proj1 accesses_in_bounds Sample.log_unused Sample.quarter
           Sample.level_2_2_2 0 2 2 Sample.fresh_2_4).
  - vm_compute. reflexivity.
  - vm_compute. reflexivity.
  - split; [cbn; unfold I32.max_signed; lia|].
    repeat constructor; cbn; unfold I32.max_signed; lia.
  - split; [cbn; lia|]. repeat constructor; cbn; lia.
Defined.

(** C10.  The extrema start at 0 and every update keeps
    [xMin <= 0 <= xMax] and [yMin <= 0 <= yMax], moving a bound outwards
    only, so they hold after any number of iterations and at the end of
    the generation pass.  The
    extrema after the last iteration of a subset are those before it
    widened by the point the iteration started from; the point it writes
    is not compared, and can lie below [xMin]. *)
Theorem extrema_around_zero :
  around_zero initial_extrema ∧
  (∀ ext x y, around_zero ext → around_zero (track ext x y)) ∧
  (∀ lo hi v,
     ((widen lo hi v).1 = lo ∨ F32.ltb (widen lo hi v).1 lo = true) ∧
     ((widen lo hi v).2 = hi ∨ F32.ltb hi (widen lo hi v).2 = true)) ∧
  (∀ Math_log p choice n i x y ext a x' y' ext' a',
     around_zero ext →
     gen_points Math_log p choice n i x y ext a = Some (x', y', ext', a') →
     around_zero ext') ∧
  (∀ Math_log Math_random levelSettings numSubsets numPoints reuse ext reuse',
     generate Math_log Math_random levelSettings numSubsets numPoints reuse
       = Some (ext, reuse') →
     around_zero ext) ∧
  (∀ Math_log p choice n i x y ext a x' y' ext' a',
     gen_points Math_log p choice (S n) i x y ext a = Some (x', y', ext', a') →
     ∃ xn yn extn an,
       gen_points Math_log p choice n i x y ext a = Some (xn, yn, extn, an) ∧
       ext' = track extn xn yn ∧
       (x', y') = orbit_step Math_log p choice (xn, yn) ∧
       arr_get a' (I32.mul (index_after n i) 2) = Some x' ∧
       arr_get a' (I32.add (I32.mul (index_after n i) 2) 1) = Some y') ∧
  (∃ ext raw sets x',
     generate Sample.log_unused Sample.quarter Sample.level_2_2_2 2 2 Sample.fresh_2_4
       = Some (ext, raw) ∧
     raw !! 0%nat = Some sets ∧ arr_get sets 2 = Some x' ∧
     F32.ltb x' (xMin ext) = true).
Proof.
  split; [by vm_compute|].
  split; [apply track_around_zero|].
  split; [apply widen_outwards|].
  split; [intros; by eapply gen_points_around_zero|].
  split.
  { intros ? ? ? ? ? ? ? ? H. unfold generate in H.
    eapply gen_subsets_around_zero; [|exact H]. by vm_compute. }
  split.
  { intros ? ? ? ? ? ? ? ? ? ? ? ? ? H.
    apply gen_points_last in H as (xn & yn & extn & an & Hn & Hlast).
    apply gen_body_result in Hlast as (? & ? & ? & ?).
    by exists xn, yn, extn, an. }
  eexists _, _, _, _. repeat split; vm_compute; reflexivity.
Qed.

Lemma extrema_around_zero_witness :
  ∃ ext raw,
    generate Sample.log_unused Sample.quarter Sample.level_2_2_2 2 2 Sample.fresh_2_4
      = Some (ext, raw) ∧
    around_zero ext.
Proof.
  eexists _, _. split; [vm_compute; reflexivity|].
  eapply (proj1 (proj2 (proj2 (proj2 (proj2 extrema_around_zero))))
            Sample.log_unused Sample.quarter Sample.level_2_2_2 2 2 Sample.fresh_2_4).
  vm_compute. reflexivity.
Defined.

(** * Further properties of the kernel *)

(** ** Allocation *)



(** ** Counts of zero or less *)

Lemma ifloor_range x v : ifloor x = Some v → I32.min_signed <= v <= I32.max_signed.
Proof.
  unfold ifloor, F64.floor_i32, I32.in_range.
  destruct x as [s|s| |s m e]; try done.
  - intros [= <-]. unfold I32.min_signed, I32.max_signed. lia.
  - destruct (_ && _) eqn:E; [|done]. intros [= <-].
    apply andb_true_iff in E as [E1 E2]. lia.
Qed.

Section NoPoints.

Variable Math_log : float -> float.
Variable Math_random : nat -> float.

Lemma gen_subsets_no_points p choice numPoints n : ∀ s c ext (a : pool),
  numPoints <= 0 → 0 <= s → s + Z.of_nat n <= Z.of_nat (length a) →
  s + Z.of_nat n <= I32.max_signed →
  gen_subsets Math_log Math_random p choice numPoints n s c ext a = Some (ext, a).
Proof.
  induction n as [|n IH]; intros s c ext a Hnp Hs Hlen Hmax; [done|].
  cbn [gen_subsets].
  destruct (arr_get_in_range a s) as [sets Hsets]; [lia|]. rewrite Hsets. cbn.
  apply arr_get_Some in Hsets as [_ Hsets].
  replace (Z.to_nat numPoints) with 0%nat by lia. cbn.
  rewrite list_insert_id by done. rewrite I32_add_1 by lia.
  apply IH; lia.
Qed.

Lemma norm_subsets_no_points k numPoints n : ∀ s (a : pool),
  numPoints <= 0 → 0 <= s → s + Z.of_nat n <= Z.of_nat (length a) →
  s + Z.of_nat n <= I32.max_signed →
  norm_subsets k numPoints n s a = Some a.
Proof.
  induction n as [|n IH]; intros s a Hnp Hs Hlen Hmax; [done|].
  cbn [norm_subsets].
  destruct (arr_get_in_range a s) as [sets Hsets]; [lia|]. rewrite Hsets. cbn.
  apply arr_get_Some in Hsets as [_ Hsets].
  replace (Z.to_nat numPoints) with 0%nat by lia. cbn.
  rewrite list_insert_id by done. rewrite I32_add_1 by lia.
  apply IH; lia.
Qed.

Lemma FractalGeometry_no_op levelSettings id numSubsets numPoints (reuse : pool) :
  ifloor (F64.of_f32 (levelSettings !!! 1%nat)) = Some numSubsets →
  ifloor (F64.of_f32 (levelSettings !!! 2%nat)) = Some numPoints →
  numSubsets <= 0 ∨ (numPoints <= 0 ∧ numSubsets <= Z.of_nat (length reuse)) →
  FractalGeometry Math_log Math_random levelSettings id reuse = Some reuse.
Proof.
  intros Hs Hp Hcase. unfold FractalGeometry, generate. rewrite Hs, Hp. cbn.
  destruct Hcase as [Hns|[Hnp Hlen]].
  - by replace (Z.to_nat numSubsets) with 0%nat by lia.
  - pose proof (ifloor_range _ _ Hs) as [_ Hmax].
    destruct (decide (numSubsets <= 0)) as [Hns|Hns].
    { by replace (Z.to_nat numSubsets) with 0%nat by lia. }
    rewrite gen_subsets_no_points by lia. cbn.
    apply norm_subsets_no_points; lia.
Qed.

End NoPoints.

(** [FractalGeometry] with no subset, or with no point per subset in a
    pool that has a slot for every subset: the call returns the pool as
    it was; counts below zero behave as zero. *)
Theorem no_subsets_or_no_points_is_no_op Math_log Math_random levelSettings id
    numSubsets numPoints (reuse : pool) :
  ifloor (F64.of_f32 (levelSettings !!! 1%nat)) = Some numSubsets →
  ifloor (F64.of_f32 (levelSettings !!! 2%nat)) = Some numPoints →
  numSubsets <= 0 ∨ (numPoints <= 0 ∧ numSubsets <= Z.of_nat (length reuse)) →
  FractalGeometry Math_log Math_random levelSettings id reuse = Some reuse.
Proof. apply FractalGeometry_no_op. Qed.

Lemma no_subsets_or_no_points_is_no_op_witness :
  FractalGeometry Sample.log_unused Sample.quarter Sample.level_1_2_0 0 Sample.fresh_2_4
  = Some Sample.fresh_2_4.
Proof.
  apply (no_subsets_or_no_points_is_no_op _ _ Sample.level_1_2_0 0 2 0).
  - vm_compute. reflexivity.
  - vm_compute. reflexivity.
  - right. split; [lia | vm_compute; discriminate].
Defined.




(** ** A call that returns had a pool that fits *)

Lemma I32_mul_2_nonneg i :
  0 <= i <= 2 ^ 30 → 0 <= I32.mul i 2 → i < 2 ^ 30 ∧ I32.mul i 2 = 2 * i.
Proof.
  intros Hi Hm. destruct (decide (i = 2 ^ 30)) as [->|Hne].
  - vm_compute in Hm. by destruct Hm.
  - split; [lia|]. apply I32_mul_2; unfold I32.max_signed; lia.
Qed.

Section Fits.

Variable Math_log : float -> float.
Variable Math_random : nat -> float.

Lemma gen_points_fits p choice n : ∀ i x y ext (a : buffer) r,
  0 <= i <= 2 ^ 30 → 2 * i <= Z.of_nat (length a) →
  gen_points Math_log p choice n i x y ext a = Some r →
  2 * (i + Z.of_nat n) <= Z.of_nat (length a).
Proof.
  induction n as [|n IH]; intros i x y ext a r Hi Hlen H; [lia|].
  cbn [gen_points] in H. unfold gen_body in H.
  destruct (arr_set a _ _) as [a1|] eqn:H1; [|done]. cbn in H.
  destruct (arr_set a1 _ _) as [a2|] eqn:H2; [|done]. cbn in H.
  apply arr_set_Some in H1 as [R1 ->]. apply arr_set_Some in H2 as [R2 ->].
  rewrite length_insert in R2.
  destruct (I32_mul_2_nonneg i) as [Hlt Hmul]; [lia | lia |].
  rewrite Hmul in R1, R2. rewrite I32_add_1 in R1 by (unfold I32.max_signed; lia).
  rewrite I32_add_1 in H by (unfold I32.max_signed; lia).
  apply IH in H; rewrite ?length_insert in *; lia.
Qed.

Lemma gen_subsets_fits p choice numPoints n : ∀ s c ext (a : pool) r,
  0 <= s <= Z.of_nat (length a) → s + Z.of_nat n <= I32.max_signed →
  gen_subsets Math_log Math_random p choice numPoints n s c ext a = Some r →
  s + Z.of_nat n <= Z.of_nat (length a) ∧
  ∀ t (sets : buffer), (Z.to_nat s ≤ t < Z.to_nat s + n)%nat → a !! t = Some sets →
    2 * Z.of_nat (Z.to_nat numPoints) <= Z.of_nat (length sets).
Proof.
  induction n as [|n IH]; intros s c ext a r Hs Hmax H.
  - split; [lia|]. intros t sets Ht. lia.
  - cbn [gen_subsets] in H.
    destruct (arr_get a s) as [sets0|] eqn:Hsets; [|done]. cbn in H.
    destruct (gen_points _ _ _ _ _ _ _ _ _) as [[[[x1 y1] ext1] sets1]|] eqn:Hp; [|done].
    cbn in H. rewrite I32_add_1 in H by lia.
    apply arr_get_Some in Hsets as [Hrange Hsets].
    apply IH in H as [Hlen Hrest]; [|rewrite ?length_insert; lia..].
    rewrite length_insert in Hlen. split; [lia|].
    intros t sets Ht Hlook.
    destruct (decide (t = Z.to_nat s)) as [->|Hne].
    + assert (sets = sets0) as -> by congruence.
      apply gen_points_fits in Hp; lia.
    + apply (Hrest t sets); [lia|]. by rewrite list_lookup_insert_ne.
Qed.

Lemma FractalGeometry_fits levelSettings id numSubsets numPoints (reuse : pool) :
  ifloor (F64.of_f32 (levelSettings !!! 1%nat)) = Some numSubsets →
  ifloor (F64.of_f32 (levelSettings !!! 2%nat)) = Some numPoints →
  is_Some (FractalGeometry Math_log Math_random levelSettings id reuse) →
  pool_fits numSubsets numPoints reuse.
Proof.
  intros Hs Hp [r H]. unfold FractalGeometry, generate in H. rewrite Hs, Hp in H.
  cbn in H.
  destruct (gen_subsets _ _ _ _ _ _ _ _ _ _) as [[ext a1]|] eqn:Hg; [|done].
  pose proof (ifloor_range _ _ Hs) as [_ Hmax].
  apply gen_subsets_fits in Hg as [Hlen Hall]; [|unfold I32.max_signed in *; lia..].
  split; [lia|]. apply Forall_lookup. intros t sets Ht.
  pose proof (lookup_lt_Some _ _ _ Ht) as Hlt. rewrite length_take in Hlt.
  rewrite lookup_take_lt in Ht by lia.
  specialize (Hall t sets ltac:(lia) Ht). cbn. lia.
Qed.

End Fits.

(** [FractalGeometry] returns exactly when the pool has a buffer for every
    subset with room for every point; in any other pool it traps. *)
Theorem returns_iff_pool_fits Math_log Math_random levelSettings id
    numSubsets numPoints (reuse : pool) :
  ifloor (F64.of_f32 (levelSettings !!! 1%nat)) = Some numSubsets →
  ifloor (F64.of_f32 (levelSettings !!! 2%nat)) = Some numPoints →
  lengths_i32 reuse →
  is_Some (FractalGeometry Math_log Math_random levelSettings id reuse)
  ↔ pool_fits numSubsets numPoints reuse.
Proof.
  intros Hs Hp Hi32. split.
  - by apply FractalGeometry_fits.
  - by apply FractalGeometry_total.
Qed.

Lemma returns_iff_pool_fits_witness :
  ¬ pool_fits 2 4 (replicate 3 (replicate 4 F32.c123)) ∧
  FractalGeometry Sample.log_unused Sample.quarter Sample.level_3_2_4 0
    (replicate 3 (replicate 4 F32.c123)) = None.
Proof.
  assert (¬ pool_fits 2 4 (replicate 3 (replicate 4 F32.c123))) as Hnot.
  { intros [_ Hfit]. apply Forall_inv in Hfit. cbn in Hfit. lia. }
  split; [done|].
  apply eq_None_not_Some. intros Hsome. apply Hnot.
  apply (returns_iff_pool_fits Sample.log_unused Sample.quarter Sample.level_3_2_4 0 2 4);
    [vm_compute; reflexivity | vm_compute; reflexivity | | done].
  split; [cbn; unfold I32.max_signed; lia|].
  repeat constructor; cbn; unfold I32.max_signed; lia.
Defined.

(** ** What a call leaves in place *)

Lemma I32_wrap_le x : 0 <= x → I32.wrap x <= x.
Proof.
  intros Hx. unfold I32.wrap.
  pose proof (Z.mod_le (x + 2 ^ 31) (2 ^ 32) ltac:(lia) ltac:(lia)). lia.
Qed.

Lemma I32_wrap_lower x : - 2 ^ 31 <= I32.wrap x.
Proof.
  unfold I32.wrap.
  pose proof (Z.mod_pos_bound (x + 2 ^ 31) (2 ^ 32) ltac:(lia)). lia.
Qed.

Lemma visited_bound n : ∀ s t,
  0 <= s → s + Z.of_nat n <= I32.max_signed → t ∈ visited n s →
  (Z.to_nat s ≤ t < Z.to_nat s + n)%nat.
Proof.
  induction n as [|n IH]; intros s t Hs Hmax Ht; cbn [visited] in Ht.
  - by apply elem_of_nil in Ht.
  - apply elem_of_cons in Ht as [->|Ht]; [lia|].
    rewrite I32_add_1 in Ht by lia. apply IH in Ht; lia.
Qed.

Lemma written_bound n : ∀ i j,
  0 <= i → i + Z.of_nat n <= I32.max_signed → j ∈ written n i →
  (j < 2 * (Z.to_nat i + n))%nat.
Proof.
  induction n as [|n IH]; intros i j Hi Hmax Hj; cbn [written] in Hj.
  - by apply elem_of_nil in Hj.
  - pose proof (I32_wrap_le (i * 2) ltac:(lia)) as Hw.
    pose proof (I32_wrap_lower (i * 2)) as Hlo.
    apply elem_of_cons in Hj as [->|Hj]; [unfold I32.mul; lia|].
    apply elem_of_cons in Hj as [->|Hj].
    + unfold I32.add, I32.mul.
      destruct (decide (0 <= I32.wrap (i * 2) + 1)) as [Hpos|Hneg].
      * pose proof (I32_wrap_le _ Hpos). lia.
      * rewrite I32_wrap_small; [lia|].
        unfold I32.min_signed, I32.max_signed. lia.
    + rewrite I32_add_1 in Hj by lia. apply IH in Hj; lia.
Qed.

Lemma pool_same_outside_shape V W (a b : pool) :
  pool_same_outside V W a b → shape a = shape b.
Proof.
  intros [Hl H]. unfold shape. apply list_eq. intros t.
  rewrite !list_lookup_fmap.
  destruct (a !! t) as [x|] eqn:Ha; destruct (b !! t) as [y|] eqn:Hb; cbn.
  - f_equal. by destruct (proj2 (H t) x y Ha Hb).
  - apply lookup_lt_Some in Ha. apply lookup_ge_None in Hb. lia.
  - apply lookup_lt_Some in Hb. apply lookup_ge_None in Ha. lia.
  - done.
Qed.

(** [FractalGeometry] never resizes: the pool it returns has the buffers
    of the pool it was given, of the same lengths, and every entry beyond
    the first [numSubsets] buffers or beyond the first [2 * numPoints]
    offsets of a buffer is as it was. *)
Theorem call_keeps_shape_and_rest Math_log Math_random levelSettings id
    numSubsets numPoints (reuse reuse' : pool) :
  ifloor (F64.of_f32 (levelSettings !!! 1%nat)) = Some numSubsets →
  ifloor (F64.of_f32 (levelSettings !!! 2%nat)) = Some numPoints →
  FractalGeometry Math_log Math_random levelSettings id reuse = Some reuse' →
  shape reuse' = shape reuse ∧
  ∀ t j : nat, numSubsets <= Z.of_nat t ∨ 2 * numPoints <= Z.of_nat j →
    reuse' !! t ≫= (.!! j) = reuse !! t ≫= (.!! j).
Proof.
  intros Hs Hp H.
  apply FractalGeometry_frame in H as (ns & np & Hs' & Hp' & Hfr).
  assert (ns = numSubsets) as -> by congruence.
  assert (np = numPoints) as -> by congruence.
  split; [by eapply pool_same_outside_shape|].
  pose proof (ifloor_range _ _ Hs) as [_ Hsmax].
  pose proof (ifloor_range _ _ Hp) as [_ Hpmax].
  destruct Hfr as [Hl Hfr]. intros t j Hout. destruct (Hfr t) as [Hsame Hin].
  destruct (decide (t ∈ visited (Z.to_nat numSubsets) 0)) as [Ht|Ht].
  - apply visited_bound in Ht; [|unfold I32.max_signed in *; lia..].
    destruct (reuse' !! t) as [x|] eqn:Ha; destruct (reuse !! t) as [y|] eqn:Hb; cbn.
    + destruct (Hin x y eq_refl eq_refl) as [_ Hxy]. apply Hxy.
      intros Hj. apply written_bound in Hj; unfold I32.max_signed in *; lia.
    + apply lookup_lt_Some in Ha. apply lookup_ge_None in Hb. lia.
    + apply lookup_lt_Some in Hb. apply lookup_ge_None in Ha. lia.
    + done.
  - by rewrite Hsame.
Qed.

Lemma call_keeps_shape_and_rest_witness :
  ∃ reuse',
    FractalGeometry Sample.log_unused Sample.quarter Sample.level_1_1_1 0
      Sample.fresh_2_4 = Some reuse' ∧
    shape reuse' = shape Sample.fresh_2_4 ∧
    reuse' !! 0%nat ≫= (.!! 2%nat) = Some F32.c123.
Proof.
  eexists. split; [vm_compute; reflexivity|].
  destruct (call_keeps_shape_and_rest Sample.log_unused Sample.quarter
              Sample.level_1_1_1 0 1 1 Sample.fresh_2_4 _
              ltac:(vm_compute; reflexivity) ltac:(vm_compute; reflexivity)
              ltac:(vm_compute; reflexivity)) as [Hshape Hrest].
  split; [exact Hshape|].
  rewrite (Hrest 0%nat 2%nat) by (right; lia). reflexivity.
Defined.

(** ** The pool across calls *)

Section Calls.

Variable Math_log : float -> float.

Lemma build_keeps_shape draws levelSettings id (data data' : pool) :
  build Math_log draws levelSettings id (Some data) = Some data' →
  shape data' = shape data.
Proof.
  unfold build, myBuild, acquire. intros H.
  destruct (ifloor (F64.of_f32 (levelSettings !!! 0%nat))) as [n0|]; [|done].
  destruct (ifloor (F64.of_f32 (levelSettings !!! 1%nat))) as [n1|]; [|done].
  cbn in H. apply FractalGeometry_frame in H as (ns & np & _ & _ & Hfr).
  by eapply pool_same_outside_shape.
Qed.

Lemma after_calls_keep_shape calls : ∀ (data data' : pool),
  after_calls Math_log calls (Some data) = Some (Some data') →
  shape data' = shape data.
Proof.
  induction calls as [|[levelSettings draws] calls IH]; intros data data' H.
  - cbn in H. by injection H as <-.
  - cbn [after_calls] in H.
    destruct (build _ _ _ _ _) as [data1|] eqn:Hb; [|done]. cbn in H.
    apply IH in H. apply build_keeps_shape in Hb. congruence.
Qed.

End Calls.

(** [myBuild] and [build]: once a pool exists, no later call changes the
    number of its buffers or the length of any of them, whatever the
    settings of those calls are. *)
Theorem pool_shape_is_fixed_by_first_call Math_log calls (data data' : pool) :
  after_calls Math_log calls (Some data) = Some (Some data') →
  shape data' = shape data.
Proof. apply after_calls_keep_shape. Qed.

Lemma pool_shape_is_fixed_by_first_call_witness :
  ∃ data',
    after_calls Sample.log_unused
      [(Sample.level_1_1_1, Sample.quarter); (Sample.level_2_2_2, Sample.halves)]
      (Some Sample.fresh_2_4) = Some (Some data') ∧
    shape data' = shape Sample.fresh_2_4.
Proof.
  eexists. split; [vm_compute; reflexivity|].
  apply (pool_shape_is_fixed_by_first_call Sample.log_unused
           [(Sample.level_1_1_1, Sample.quarter); (Sample.level_2_2_2, Sample.halves)]).
  vm_compute. reflexivity.
Defined.

(** ** Signs of rounded results *)

(** Closes a goal about special values by cases on the sign bits. *)
Ltac by_signs :=
  try done; repeat match goal with s : bool |- _ => destruct s end; done.

Lemma binary_round_aux_abs prec emax s s' m e l :
  SFabs (binary_round_aux prec emax s m e l) = SFabs (binary_round_aux prec emax s' m e l).
Proof.
  unfold binary_round_aux.
  destruct (shr_fexp prec emax m e l) as [mrs1 e1].
  destruct (shr_fexp prec emax _ e1 loc_Exact) as [mrs2 e2].
  destruct (shr_m mrs2); [done| |done]. by destruct (_ <=? _).
Qed.

Lemma binary_round_aux_sign prec emax m e l :
  sign_clear (binary_round_aux prec emax false m e l) = true.
Proof.
  unfold binary_round_aux.
  destruct (shr_fexp prec emax m e l) as [mrs1 e1].
  destruct (shr_fexp prec emax _ e1 loc_Exact) as [mrs2 e2].
  destruct (shr_m mrs2); [done| |done]. by destruct (_ <=? _).
Qed.

Lemma binary_round_abs prec emax s s' m e :
  SFabs (binary_round prec emax s m e) = SFabs (binary_round prec emax s' m e).
Proof.
  unfold binary_round. destruct (shl_align _ _ _). apply binary_round_aux_abs.
Qed.

Lemma binary_round_sign prec emax m e :
  sign_clear (binary_round prec emax false m e) = true.
Proof.
  unfold binary_round. destruct (shl_align _ _ _). apply binary_round_aux_sign.
Qed.

Lemma binary_normalize_opp_abs prec emax m e :
  SFabs (binary_normalize prec emax m e false)
  = SFabs (binary_normalize prec emax (- m) e false).
Proof. destruct m; cbn; [done | apply binary_round_abs..]. Qed.

Lemma SFsub_swap_abs prec emax x y :
  SFabs (SFsub prec emax x y) = SFabs (SFsub prec emax y x).
Proof.
  destruct x as [sx|sx| |sx mx ex], y as [sy|sy| |sy my ey];
    try by_signs.
  cbn [SFsub]. rewrite (Z.min_comm ey ex).
  rewrite (binary_normalize_opp_abs prec emax (_ - _)). f_equal. f_equal. lia.
Qed.

Lemma SFmul_square_abs prec emax u v :
  SFabs u = SFabs v → SFmul prec emax u u = SFmul prec emax v v.
Proof.
  destruct u as [su|su| |su mu eu], v as [sv|sv| |sv mv ev]; try by_signs.
  intros [= -> ->]. cbn [SFmul]. by destruct su, sv.
Qed.

Lemma SFmul_square_sign prec emax u : sign_clear (SFmul prec emax u u) = true.
Proof.
  destruct u as [[]|[]| |[] m e]; try done; cbn [SFmul xorb];
    apply binary_round_aux_sign.
Qed.

Lemma SFadd_sign prec emax u v :
  sign_clear u = true → sign_clear v = true → sign_clear (SFadd prec emax u v) = true.
Proof.
  destruct u as [[]|[]| |[] mu eu], v as [[]|[]| |[] mv ev]; try done.
  intros _ _. cbn [SFadd cond_Zopp]. cbn. apply binary_round_sign.
Qed.

Lemma SFsqrt_sign prec emax u :
  sign_clear u = true → sign_clear (SFsqrt prec emax u) = true.
Proof.
  destruct u as [[]|[]| |[] m e]; try done.
  intros _. cbn [SFsqrt]. destruct (SFsqrt_core_binary _ _ _ _) as [[mz ez] lz].
  apply binary_round_aux_sign.
Qed.

Lemma of_f32_sign u : sign_clear u = true → sign_clear (F64.of_f32 u) = true.
Proof.
  destruct u as [[]|[]| |[] m e]; try done. intros _. apply binary_round_sign.
Qed.

Lemma of_f64_sign u : sign_clear u = true → sign_clear (F32.of_f64 u) = true.
Proof.
  destruct u as [[]|[]| |[] m e]; try done. intros _. apply binary_round_sign.
Qed.

Lemma isqrt_sign u : sign_clear u = true → sign_clear (isqrt u) = true.
Proof. intros H. unfold isqrt. by apply of_f64_sign, SFsqrt_sign, of_f32_sign. Qed.

Lemma sign_clear_not_below_zero u : sign_clear u = true → F32.ltb u F32.zero = false.
Proof. by destruct u as [[]|[]| |[] m e]. Qed.

(** ** The distance of two points *)

(** [getPointDistance] is never negative: the result is NaN or has a
    clear sign bit, so [dist < 0] is false, and a swap of the two points
    does not change it. *)
Theorem getPointDistance_sign_and_symmetry (x1 y1 x2 y2 : float) :
  sign_clear (getPointDistance x1 y1 x2 y2) = true ∧
  F32.ltb (getPointDistance x1 y1 x2 y2) F32.zero = false ∧
  getPointDistance x1 y1 x2 y2 = getPointDistance x2 y2 x1 y1.
Proof.
  assert (sign_clear (getPointDistance x1 y1 x2 y2) = true) as Hsign.
  { unfold getPointDistance. apply isqrt_sign, SFadd_sign; apply SFmul_square_sign. }
  split; [done|]. split; [by apply sign_clear_not_below_zero|].
  unfold getPointDistance, F32.mul, F32.sub.
  rewrite (SFmul_square_abs _ _ (SFsub F32.prec F32.emax x1 x2)
             (SFsub F32.prec F32.emax x2 x1)) by apply SFsub_swap_abs.
  rewrite (SFmul_square_abs _ _ (SFsub F32.prec F32.emax y1 y2)
             (SFsub F32.prec F32.emax y2 y1)) by apply SFsub_swap_abs.
  done.
Qed.

(** ** Special values in the parameter draw and the re-scaling *)

Lemma SFsub_diag prec emax x :
  is_finite x = true → SFsub prec emax x x = S754_zero false.
Proof.
  destruct x as [[]|[]| |s m e]; try done. intros _.
  cbn [SFsub]. by rewrite Z.sub_diag.
Qed.

Lemma SFeqb_refl x : is_finite x = true → SFeqb x x = true.
Proof.
  destruct x as [[]|[]| |[] m e]; try done; intros _; unfold SFeqb; cbn;
    by rewrite Z.compare_refl, Pos.compare_cont_refl.
Qed.

(** [a == b] makes [a - b] a zero, or NaN for two equal infinities. *)
Lemma SFeqb_sub prec emax a b :
  SFeqb a b = true → is_zero_or_nan (SFsub prec emax a b) = true.
Proof.
  unfold SFeqb.
  destruct a as [sa|sa| |sa ma ea], b as [sb|sb| |sb mb eb]; try by_signs.
  cbn [SFcompare]. change (Pos.compare_cont Eq ma mb) with (Pos.compare ma mb).
  destruct sa, sb; try done.
  all: destruct (Z.compare_spec ea eb) as [->|?|?]; try done.
  all: destruct (Pos.compare_spec ma mb) as [->|?|?]; try done.
  all: intros _; cbn [SFsub]; by rewrite Z.sub_diag.
Qed.

Lemma SFdiv_by_zero_or_nan prec emax z d :
  is_zero_or_nan d = true → is_finite (SFdiv prec emax z d) = false.
Proof. destruct z as [?|?| |? ? ?], d as [?|?| |? ? ?]; by_signs. Qed.

Lemma SFmul_non_finite prec emax u v :
  is_finite u = false → is_finite (SFmul prec emax u v) = false.
Proof. destruct u as [?|?| |? ? ?], v as [?|?| |? ? ?]; by_signs. Qed.

Lemma SFsub_non_finite prec emax u v :
  is_finite u = false → is_finite (SFsub prec emax u v) = false.
Proof. destruct u as [?|?| |? ? ?], v as [?|?| |? ? ?]; by_signs. Qed.

Lemma SFdiv_non_finite prec emax u v :
  is_finite u = false → is_finite (SFdiv prec emax u v) = false.
Proof. destruct u as [?|?| |? ? ?], v as [?|?| |? ? ?]; by_signs. Qed.

Lemma SFadd_non_finite prec emax u v :
  is_finite u = false → is_finite (SFadd prec emax u v) = false.
Proof. destruct u as [?|?| |? ? ?], v as [?|?| |? ? ?]; by_signs. Qed.

Section Rescale.

Variable Math_log : float -> float.

Lemma tunnel_non_finite scaleFactor iRadius oRadius x y :
  (is_finite x = false → is_finite (tunnel scaleFactor iRadius oRadius x y).1 = false) ∧
  (is_finite y = false → is_finite (tunnel scaleFactor iRadius oRadius x y).2 = false).
Proof.
  unfold tunnel. destruct (F32.gtb iRadius F32.zero); [|done].
  destruct (F32.ltb _ iRadius); [|done]. cbn [fst snd].
  split; intros H; by apply SFadd_non_finite, SFdiv_non_finite.
Qed.

Lemma rescale_degenerate levelSettings ext xr yr :
  (F32.eqb (xMax ext) (xMin ext) = true →
   is_finite (rescale (level_scaling levelSettings ext) xr yr).1 = false) ∧
  (F32.eqb (yMax ext) (yMin ext) = true →
   is_finite (rescale (level_scaling levelSettings ext) xr yr).2 = false).
Proof.
  unfold rescale, level_scaling. cbn [sc_scaleX sc_scaleY sc_xMin sc_yMin sc_factor
    sc_iRadius sc_oRadius].
  split; intros H.
  - apply tunnel_non_finite, SFsub_non_finite, SFmul_non_finite,
      SFdiv_by_zero_or_nan, SFeqb_sub, H.
  - apply tunnel_non_finite, SFsub_non_finite, SFmul_non_finite,
      SFdiv_by_zero_or_nan, SFeqb_sub, H.
Qed.

Lemma rescale_minimum levelSettings ext yr s m e :
  levelSettings !!! 3%nat = S754_finite s m e →
  is_finite (xMin ext) = true →
  is_finite (sc_scaleX (level_scaling levelSettings ext)) = true →
  F32.gtb (sc_iRadius (level_scaling levelSettings ext)) F32.zero = false →
  (rescale (level_scaling levelSettings ext) (xMin ext) yr).1
  = SFopp (levelSettings !!! 3%nat).
Proof.
  intros Hsf Hmin Hscale Hoff. unfold rescale, tunnel. rewrite Hoff.
  cbn [fst sc_xMin sc_factor level_scaling]. rewrite Hsf.
  unfold F32.sub at 2. rewrite SFsub_diag by done.
  destruct (sc_scaleX _) as [sx|sx| |sx mx ex]; try done; by destruct sx.
Qed.

End Rescale.

Lemma draw_param_collapsed lo u :
  is_finite lo = true → is_finite u = true → F32.eqb (draw_param lo lo u) lo = true.
Proof.
  intros Hlo Hu. unfold draw_param, F32.sub. rewrite SFsub_diag by done.
  destruct u as [su|su| |su mu eu]; try done.
  - destruct lo as [sl|sl| |sl ml el]; try done; [by destruct su, sl|].
    cbn. by apply (SFeqb_refl (S754_finite sl ml el)).
  - destruct lo as [sl|sl| |sl ml el]; try done; [by destruct su, sl|].
    cbn. by apply (SFeqb_refl (S754_finite sl ml el)).
Qed.

(** [FractalGeometry], parameter draw: a range with [min = max] gives that
    value whatever the (finite) draw is. *)
Theorem collapsed_range_draw (lo u : float) :
  is_finite lo = true → is_finite u = true → F32.eqb (draw_param lo lo u) lo = true.
Proof. apply draw_param_collapsed. Qed.

Lemma collapsed_range_draw_witness :
  F32.eqb (draw_param F32.c100 F32.c100 F32.half) F32.c100 = true.
Proof. apply (collapsed_range_draw F32.c100 F32.half); vm_compute; reflexivity. Defined.

(** [FractalGeometry], normalisation: when [xMax == xMin] the scale is a
    division by zero and every x coordinate written is an infinity or
    NaN, with or without the tunnel; likewise for y. *)
Theorem equal_extrema_give_non_finite_coordinates levelSettings ext xr yr :
  (F32.eqb (xMax ext) (xMin ext) = true →
   is_finite (rescale (level_scaling levelSettings ext) xr yr).1 = false) ∧
  (F32.eqb (yMax ext) (yMin ext) = true →
   is_finite (rescale (level_scaling levelSettings ext) xr yr).2 = false).
Proof. apply rescale_degenerate. Qed.

Lemma equal_extrema_give_non_finite_coordinates_witness :
  is_finite (rescale (level_scaling Sample.level_1_1_1 initial_extrema)
               F32.one F32.one).1 = false.
Proof.
  apply (proj1 (equal_extrema_give_non_finite_coordinates
                  Sample.level_1_1_1 initial_extrema F32.one F32.one)).
  vm_compute. reflexivity.
Defined.

(** [FractalGeometry], normalisation without tunnel: the smallest tracked
    x is mapped onto [- scaleFactor] exactly. *)
Theorem minimum_maps_to_minus_scale levelSettings ext yr s m e :
  levelSettings !!! 3%nat = S754_finite s m e →
  is_finite (xMin ext) = true →
  is_finite (sc_scaleX (level_scaling levelSettings ext)) = true →
  F32.gtb (sc_iRadius (level_scaling levelSettings ext)) F32.zero = false →
  (rescale (level_scaling levelSettings ext) (xMin ext) yr).1
  = SFopp (levelSettings !!! 3%nat).
Proof. apply rescale_minimum. Qed.

Lemma minimum_maps_to_minus_scale_witness :
  (rescale (level_scaling Sample.level_2_2_2 (Extrema F32.zero F32.one F32.zero F32.one))
     F32.zero F32.one).1 = F32.of_Z (-100).
Proof.
  apply (minimum_maps_to_minus_scale Sample.level_2_2_2
           (Extrema F32.zero F32.one F32.zero F32.one) F32.one false 13107200 (-17));
    vm_compute; reflexivity.
Defined.

(** ** The order of floats *)

Lemma SFltb_irrefl v : SFltb v v = false.
Proof.
  unfold SFltb. destruct v as [[]|[]| |[] m e]; try done; cbn;
    by rewrite Z.compare_refl, Pos.compare_cont_refl.
Qed.

Lemma SFltb_trans a b c : SFltb a b = true → SFltb b c = true → SFltb a c = true.
Proof.
  unfold SFltb.
  destruct a as [sa|sa| |sa ma ea], b as [sb|sb| |sb mb eb], c as [sc|sc| |sc mc ec];
    try by_signs.
  cbn [SFcompare].
  change (Pos.compare_cont Eq ma mb) with (Pos.compare ma mb).
  change (Pos.compare_cont Eq mb mc) with (Pos.compare mb mc).
  change (Pos.compare_cont Eq ma mc) with (Pos.compare ma mc).
  destruct sa, sb, sc; try done.
  all: destruct (Z.compare_spec ea eb) as [?|?|?]; try done.
  all: destruct (Z.compare_spec eb ec) as [?|?|?]; try done.
  all: destruct (Z.compare_spec ea ec) as [?|?|?]; try done; try lia.
  all: destruct (Pos.compare_spec ma mb) as [?|?|?]; try done.
  all: destruct (Pos.compare_spec mb mc) as [?|?|?]; try done.
  all: destruct (Pos.compare_spec ma mc) as [?|?|?]; try done; try lia.
Qed.

(** ** Extrema enclose the tracked points *)

Lemma widen_encloses lo hi v :
  F32.ltb hi lo = false →
  F32.ltb (widen lo hi v).2 (widen lo hi v).1 = false ∧
  F32.ltb v (widen lo hi v).1 = false ∧ F32.gtb v (widen lo hi v).2 = false ∧
  ∀ w, F32.ltb w lo = false → F32.gtb w hi = false →
       F32.ltb w (widen lo hi v).1 = false ∧ F32.gtb w (widen lo hi v).2 = false.
Proof.
  unfold widen, F32.ltb, F32.gtb. intros Hord.
  destruct (SFltb v lo) eqn:E1; cbn [fst snd].
  - assert (SFltb hi v = false) as Hhv.
    { destruct (SFltb hi v) eqn:E; [|done].
      by rewrite (SFltb_trans hi v lo E E1) in Hord. }
    split; [done|]. split; [apply SFltb_irrefl|]. split; [done|].
    intros w Hlo Hhi. split; [|done].
    destruct (SFltb w v) eqn:E; [|done].
    by rewrite (SFltb_trans w v lo E E1) in Hlo.
  - destruct (SFltb hi v) eqn:E2; cbn [fst snd].
    + split; [done|]. split; [done|]. split; [apply SFltb_irrefl|].
      intros w Hlo Hhi. split; [done|].
      destruct (SFltb v w) eqn:E; [|done].
      by rewrite (SFltb_trans hi v w E2 E) in Hhi.
    + done.
Qed.

Lemma track_encloses ext x y :
  ordered ext →
  ordered (track ext x y) ∧ within (track ext x y) (x, y) ∧
  ∀ vw, within ext vw → within (track ext x y) vw.
Proof.
  intros [Hx Hy]. unfold track.
  destruct (widen_encloses (xMin ext) (xMax ext) x Hx) as (Ox & X1 & X2 & Xw).
  destruct (widen_encloses (yMin ext) (yMax ext) y Hy) as (Oy & Y1 & Y2 & Yw).
  destruct (widen (xMin ext) _ x) as [xlo xhi], (widen (yMin ext) _ y) as [ylo yhi].
  cbn [fst snd] in *. unfold ordered, within. cbn [xMin xMax yMin yMax fst snd].
  split; [done|]. split; [done|].
  intros [v w] (V1 & V2 & W1 & W2). cbn [fst snd] in *.
  destruct (Xw v V1 V2), (Yw w W1 W2). done.
Qed.

Section Enclose.

Variable Math_log : float -> float.

Lemma orbit_extrema_encloses p choice n : ∀ xy ext,
  ordered ext →
  ordered (orbit_extrema Math_log p choice n xy ext) ∧
  (∀ vw, within ext vw → within (orbit_extrema Math_log p choice n xy ext) vw) ∧
  ∀ k, (k < n)%nat →
    within (orbit_extrema Math_log p choice n xy ext) (orbit Math_log p choice k xy).
Proof.
  induction n as [|n IH]; intros xy ext Hord.
  - cbn. split; [done|]. split; [done|]. intros k Hk. lia.
  - cbn [orbit_extrema]. destruct xy as [x y]. cbn [fst snd].
    destruct (track_encloses ext x y Hord) as (Hord1 & Hxy & Hmono).
    destruct (IH (orbit_step Math_log p choice (x, y)) _ Hord1) as (Hord2 & Hmono2 & Hall).
    split; [done|]. split; [by auto|].
    intros [|k] Hk.
    + by apply Hmono2.
    + unfold orbit in *. rewrite Nat.iter_succ_r. apply Hall. lia.
Qed.

End Enclose.

(** ** What the two passes write *)

Section Written.

Variable Math_log : float -> float.

Lemma gen_points_closed p choice n : ∀ i x y ext (a : buffer) x' y' ext' a',
  0 <= i <= 2 ^ 30 →
  gen_points Math_log p choice n i x y ext a = Some (x', y', ext', a') →
  (x', y') = orbit Math_log p choice n (x, y) ∧
  ext' = orbit_extrema Math_log p choice n (x, y) ext ∧
  length a' = length a ∧
  (∀ j : nat, Z.of_nat j < 2 * i → a' !! j = a !! j) ∧
  ∀ k : nat, (k < n)%nat →
    a' !! Z.to_nat (2 * (i + Z.of_nat k))
      = Some (orbit Math_log p choice (S k) (x, y)).1 ∧
    a' !! Z.to_nat (2 * (i + Z.of_nat k) + 1)
      = Some (orbit Math_log p choice (S k) (x, y)).2.
Proof.
  induction n as [|n IH]; intros i x y ext a x' y' ext' a' Hi H.
  - cbn in H. injection H as <- <- <- <-.
    split; [done|]. split; [done|]. split; [done|]. split; [done|].
    intros k Hk. lia.
  - cbn [gen_points] in H. unfold gen_body in H.
    destruct (arr_set a _ _) as [a1|] eqn:H1; [|done]. cbn in H.
    destruct (arr_set a1 _ _) as [a2|] eqn:H2; [|done]. cbn in H.
    apply arr_set_Some in H1 as [R1 ->]. apply arr_set_Some in H2 as [R2 ->].
    rewrite length_insert in R2.
    destruct (I32_mul_2_nonneg i) as [Hlt Hmul]; [lia | lia |].
    rewrite Hmul in *.
    rewrite (I32_add_1 (2 * i)) in * by (unfold I32.max_signed; lia).
    rewrite (I32_add_1 i) in * by (unfold I32.max_signed; lia).
    apply IH in H as (Hxy & Hext & Hlen & Hlow & Hpts); [|lia].
    rewrite !length_insert in Hlen.
    change (F32.add (iter_x1 x y (iter_z Math_log p choice x)) (el p), F32.sub (al p) x)
      with (orbit_step Math_log p choice (x, y)) in *.
    set (x1 := F32.add _ (el p)) in *. set (y1 := F32.sub (al p) x) in *.
    assert (orbit_step Math_log p choice (x, y) = (x1, y1)) as Hstep by done.
    assert (∀ k, orbit Math_log p choice k (x1, y1)
                 = orbit Math_log p choice (S k) (x, y)) as Hshift.
    { intros k. unfold orbit. by rewrite Nat.iter_succ_r, Hstep. }
    split; [by rewrite <- Hshift|].
    split; [by cbn [orbit_extrema fst snd]; rewrite Hstep|].
    split; [done|]. split.
    + intros j Hj. rewrite Hlow by lia. rewrite !list_lookup_insert_ne by lia. done.
    + intros [|k] Hk.
      * replace (2 * (i + Z.of_nat 0%nat)) with (2 * i) by lia.
        rewrite !Hlow by lia. rewrite <- (Hshift 0%nat).
        change (orbit Math_log p choice 0 (x1, y1)) with (x1, y1). cbn [fst snd].
        split.
        -- rewrite list_lookup_insert_eq; [done|]. rewrite length_insert. lia.
        -- rewrite list_lookup_insert_ne by lia.
           rewrite list_lookup_insert_eq; [done | lia].
      * destruct (Hpts k ltac:(lia)) as [P1 P2]. rewrite <- !Hshift.
        replace (2 * (i + Z.of_nat (S k))) with (2 * (i + 1 + Z.of_nat k)) by lia.
        done.
Qed.

Lemma norm_points_closed sc n : ∀ i (a a' : buffer),
  0 <= i <= 2 ^ 30 →
  norm_points sc n i a = Some a' →
  length a' = length a ∧
  (∀ j : nat, Z.of_nat j < 2 * i → a' !! j = a !! j) ∧
  ∀ k : nat, (k < n)%nat →
    ∃ xr yr,
      a !! Z.to_nat (2 * (i + Z.of_nat k)) = Some xr ∧
      a !! Z.to_nat (2 * (i + Z.of_nat k) + 1) = Some yr ∧
      a' !! Z.to_nat (2 * (i + Z.of_nat k)) = Some (rescale sc xr yr).1 ∧
      a' !! Z.to_nat (2 * (i + Z.of_nat k) + 1) = Some (rescale sc xr yr).2.
Proof.
  induction n as [|n IH]; intros i a a' Hi H.
  - cbn in H. injection H as <-. split; [done|]. split; [done|]. intros k Hk. lia.
  - cbn [norm_points] in H.
    destruct (arr_get a (I32.mul i 2)) as [xr|] eqn:Gx; [|done]. cbn in H.
    destruct (arr_get a (I32.add (I32.mul i 2) 1)) as [yr|] eqn:Gy; [|done]. cbn in H.
    destruct (rescale sc xr yr) as [x y] eqn:Hres.
    destruct (arr_set a _ _) as [a1|] eqn:H1; [|done]. cbn in H.
    destruct (arr_set a1 _ _) as [a2|] eqn:H2; [|done]. cbn in H.
    apply arr_set_Some in H1 as [R1 ->]. apply arr_set_Some in H2 as [R2 ->].
    rewrite length_insert in R2.
    destruct (I32_mul_2_nonneg i) as [Hlt Hmul]; [lia | lia |].
    rewrite Hmul in *.
    rewrite (I32_add_1 (2 * i)) in * by (unfold I32.max_signed; lia).
    rewrite (I32_add_1 i) in * by (unfold I32.max_signed; lia).
    apply arr_get_Some in Gx as [_ Gx]. apply arr_get_Some in Gy as [_ Gy].
    apply IH in H as (Hlen & Hlow & Hpts); [|lia].
    rewrite !length_insert in Hlen.
    split; [done|]. split.
    + intros j Hj. rewrite Hlow by lia. rewrite !list_lookup_insert_ne by lia. done.
    + intros [|k] Hk.
      * replace (2 * (i + Z.of_nat 0%nat)) with (2 * i) by lia.
        exists xr, yr. rewrite Hres. cbn [fst snd].
        split; [done|]. split; [done|]. rewrite !Hlow by lia. split.
        -- rewrite list_lookup_insert_ne by lia.
           rewrite list_lookup_insert_eq; [done | lia].
        -- rewrite list_lookup_insert_eq; [done|]. rewrite length_insert. lia.
      * destruct (Hpts k ltac:(lia)) as (xr' & yr' & Q1 & Q2 & Q3 & Q4).
        replace (2 * (i + Z.of_nat (S k))) with (2 * (i + 1 + Z.of_nat k)) by lia.
        exists xr', yr'.
        rewrite !list_lookup_insert_ne in Q1 by lia.
        rewrite !list_lookup_insert_ne in Q2 by lia. done.
Qed.

End Written.

Section LevelOutput.

Variable Math_log : float -> float.
Variable Math_random : nat -> float.

Lemma gen_subsets_closed p choice numPoints n : ∀ s c ext (a : pool) ext' a',
  0 <= s → s + Z.of_nat n <= I32.max_signed →
  gen_subsets Math_log Math_random p choice numPoints n s c ext a = Some (ext', a') →
  ext' = subsets_extrema Math_log Math_random p choice (Z.to_nat numPoints) n s c ext ∧
  (∀ t : nat, (t < Z.to_nat s)%nat → a' !! t = a !! t) ∧
  ∀ j : nat, (j < n)%nat →
    ∃ sets : buffer, a' !! (Z.to_nat s + j)%nat = Some sets ∧
      ∀ k : nat, (k < Z.to_nat numPoints)%nat →
        let pt := orbit Math_log p choice (S k)
                    (seed_of Math_random (s + Z.of_nat j) (c + 2 * j)) in
        sets !! (2 * k)%nat = Some pt.1 ∧ sets !! (2 * k + 1)%nat = Some pt.2.
Proof.
  induction n as [|n IH]; intros s c ext a ext' a' Hs Hmax H.
  - cbn in H. injection H as <- <-. split; [done|]. split; [done|]. intros j Hj. lia.
  - cbn [gen_subsets] in H.
    destruct (arr_get a s) as [sets0|] eqn:Hsets; [|done]. cbn in H.
    destruct (gen_points _ _ _ _ _ _ _ _ _) as [[[[x1 y1] ext1] sets1]|] eqn:Hp; [|done].
    cbn in H. rewrite I32_add_1 in H by lia.
    apply arr_get_Some in Hsets as [Hrange Hsets].
    apply gen_points_closed in Hp as (_ & Hext1 & _ & _ & Hpts); [|lia].
    apply IH in H as (Hext & Hlow & Hrest); [|lia..].
    split; [by rewrite Hext, Hext1|]. split.
    + intros t Ht. rewrite Hlow by lia. by rewrite list_lookup_insert_ne by lia.
    + intros [|j] Hj.
      * exists sets1. split.
        { rewrite Nat.add_0_r, Hlow by lia. rewrite list_lookup_insert_eq; [done | lia]. }
        intros k Hk pt. destruct (Hpts k Hk) as [P1 P2].
        replace (Z.to_nat (2 * (0 + Z.of_nat k))) with (2 * k)%nat in P1 by lia.
        replace (Z.to_nat (2 * (0 + Z.of_nat k) + 1)) with (2 * k + 1)%nat in P2 by lia.
        subst pt. replace (s + Z.of_nat 0%nat) with s by lia.
        replace (c + 2 * 0)%nat with c by lia. done.
      * destruct (Hrest j ltac:(lia)) as (sets & Hlook & Hall).
        exists sets. split.
        { replace (Z.to_nat s + S j)%nat with (Z.to_nat (s + 1) + j)%nat by lia. done. }
        intros k Hk pt. subst pt.
        replace (s + Z.of_nat (S j)) with (s + 1 + Z.of_nat j) by lia.
        replace (c + 2 * S j)%nat with (S (S c) + 2 * j)%nat by lia.
        by apply Hall.
Qed.

Lemma norm_subsets_closed sc numPoints n : ∀ s (a a' : pool),
  0 <= s → s + Z.of_nat n <= I32.max_signed →
  norm_subsets sc numPoints n s a = Some a' →
  (∀ t : nat, (t < Z.to_nat s)%nat → a' !! t = a !! t) ∧
  ∀ j : nat, (j < n)%nat →
    ∃ sets sets' : buffer,
      a !! (Z.to_nat s + j)%nat = Some sets ∧ a' !! (Z.to_nat s + j)%nat = Some sets' ∧
      ∀ k : nat, (k < Z.to_nat numPoints)%nat →
        ∃ xr yr,
          sets !! (2 * k)%nat = Some xr ∧ sets !! (2 * k + 1)%nat = Some yr ∧
          sets' !! (2 * k)%nat = Some (rescale sc xr yr).1 ∧
          sets' !! (2 * k + 1)%nat = Some (rescale sc xr yr).2.
Proof.
  induction n as [|n IH]; intros s a a' Hs Hmax H.
  - cbn in H. injection H as <-. split; [done|]. intros j Hj. lia.
  - cbn [norm_subsets] in H.
    destruct (arr_get a s) as [sets0|] eqn:Hsets; [|done]. cbn in H.
    destruct (norm_points _ _ _ _) as [sets1|] eqn:Hp; [|done].
    cbn in H. rewrite I32_add_1 in H by lia.
    apply arr_get_Some in Hsets as [Hrange Hsets].
    apply norm_points_closed in Hp as (_ & _ & Hpts); [|lia].
    apply IH in H as (Hlow & Hrest); [|lia..].
    split.
    + intros t Ht. rewrite Hlow by lia. by rewrite list_lookup_insert_ne by lia.
    + intros [|j] Hj.
      * exists sets0, sets1. rewrite Nat.add_0_r. split; [done|]. split.
        { rewrite Hlow by lia. rewrite list_lookup_insert_eq; [done | lia]. }
        intros k Hk. destruct (Hpts k Hk) as (xr & yr & Q1 & Q2 & Q3 & Q4).
        replace (Z.to_nat (2 * (0 + Z.of_nat k))) with (2 * k)%nat in * by lia.
        replace (Z.to_nat (2 * (0 + Z.of_nat k) + 1)) with (2 * k + 1)%nat in * by lia.
        by exists xr, yr.
      * destruct (Hrest j ltac:(lia)) as (sets & sets' & L1 & L2 & Hall).
        replace (Z.to_nat (s + 1) + j)%nat with (Z.to_nat s + S j)%nat in * by lia.
        rewrite list_lookup_insert_ne in L1 by lia.
        by exists sets, sets'.
Qed.

Lemma subsets_extrema_encloses p choice numPoints n : ∀ s c ext,
  ordered ext →
  ordered (subsets_extrema Math_log Math_random p choice numPoints n s c ext) ∧
  (∀ vw, within ext vw →
     within (subsets_extrema Math_log Math_random p choice numPoints n s c ext) vw) ∧
  ∀ j k : nat, (j < n)%nat → (k < numPoints)%nat →
    within (subsets_extrema Math_log Math_random p choice numPoints n s c ext)
      (orbit Math_log p choice k (seed_of Math_random (s + Z.of_nat j) (c + 2 * j))).
Proof.
  induction n as [|n IH]; intros s c ext Hord.
  - cbn. split; [done|]. split; [done|]. intros j k Hj. lia.
  - cbn [subsets_extrema].
    destruct (orbit_extrema_encloses Math_log p choice numPoints
                (seed_of Math_random s c) ext Hord) as (Hord1 & Hmono1 & Hall1).
    destruct (IH (s + 1) (S (S c)) _ Hord1) as (Hord2 & Hmono2 & Hall2).
    split; [done|]. split; [by auto|].
    intros [|j] k Hj Hk.
    + replace (s + Z.of_nat 0%nat) with s by lia.
      replace (c + 2 * 0)%nat with c by lia. by apply Hmono2, Hall1.
    + replace (s + Z.of_nat (S j)) with (s + 1 + Z.of_nat j) by lia.
      replace (c + 2 * S j)%nat with (S (S c) + 2 * j)%nat by lia.
      apply Hall2; lia.
Qed.

Lemma generate_extrema levelSettings numSubsets numPoints (reuse : pool) ext reuse' :
  numSubsets <= I32.max_signed →
  generate Math_log Math_random levelSettings numSubsets numPoints reuse
    = Some (ext, reuse') →
  ext = level_extrema Math_log Math_random levelSettings
          (Z.to_nat numSubsets) (Z.to_nat numPoints).
Proof.
  intros Hmax H. unfold generate in H.
  apply gen_subsets_closed in H as [H _]; [done | lia |].
  unfold I32.max_signed in *. lia.
Qed.

Lemma FractalGeometry_output levelSettings id numSubsets numPoints (reuse out : pool) :
  ifloor (F64.of_f32 (levelSettings !!! 1%nat)) = Some numSubsets →
  ifloor (F64.of_f32 (levelSettings !!! 2%nat)) = Some numPoints →
  FractalGeometry Math_log Math_random levelSettings id reuse = Some out →
  ∀ s k : nat, Z.of_nat s < numSubsets → Z.of_nat k < numPoints →
    ∃ sets : buffer, out !! s = Some sets ∧
      let pt := level_point Math_log Math_random levelSettings s k in
      let sc := level_scaling levelSettings
                  (level_extrema Math_log Math_random levelSettings
                     (Z.to_nat numSubsets) (Z.to_nat numPoints)) in
      sets !! (2 * k)%nat = Some (rescale sc pt.1 pt.2).1 ∧
      sets !! (2 * k + 1)%nat = Some (rescale sc pt.1 pt.2).2.
Proof.
  intros Hs Hp H s k Hsn Hkn. unfold FractalGeometry in H. rewrite Hs, Hp in H.
  cbn in H.
  destruct (generate _ _ _ _ _ _) as [[ext a1]|] eqn:Hg; [|done]. cbn in H.
  pose proof (ifloor_range _ _ Hs) as [_ Hmax].
  pose proof (generate_extrema _ _ _ _ _ _ Hmax Hg) as ->.
  unfold generate in Hg.
  apply gen_subsets_closed in Hg as (_ & _ & Hgen); [|unfold I32.max_signed in *; lia..].
  apply norm_subsets_closed in H as (_ & Hnorm); [|unfold I32.max_signed in *; lia..].
  destruct (Hgen s ltac:(lia)) as (raw & Hraw & Hpts).
  destruct (Hnorm s ltac:(lia)) as (raw' & sets & Hraw' & Hout & Hres).
  cbn [Z.to_nat Nat.add] in *.
  assert (raw' = raw) as -> by congruence.
  exists sets. split; [done|]. cbv zeta.
  pose proof (Hpts k ltac:(lia)) as [P1 P2]. cbv zeta in P1, P2.
  destruct (Hres k ltac:(lia)) as (xr & yr & Q1 & Q2 & Q3 & Q4).
  rewrite Z.add_0_l in P1, P2.
  change (seed_of Math_random (Z.of_nat s) (6 + 2 * s)) with (level_seed Math_random s)
    in P1, P2.
  fold (level_point Math_log Math_random levelSettings s k) in P1, P2.
  rewrite P1 in Q1. rewrite P2 in Q2. injection Q1 as <-. injection Q2 as <-. done.
Qed.

End LevelOutput.

(** [FractalGeometry], generation pass: the extrema it hands to the
    normalisation are those of the start point of every subset and of the
    points of all iterations but the last of each subset, and each of
    these points lies within them. *)
Theorem extrema_enclose_tracked_points Math_log Math_random levelSettings
    numSubsets numPoints (reuse : pool) ext reuse' :
  numSubsets <= I32.max_signed →
  generate Math_log Math_random levelSettings numSubsets numPoints reuse
    = Some (ext, reuse') →
  ext = level_extrema Math_log Math_random levelSettings
          (Z.to_nat numSubsets) (Z.to_nat numPoints) ∧
  ordered ext ∧
  ∀ s k : nat, Z.of_nat s < numSubsets → Z.of_nat k < numPoints →
    within ext (orbit Math_log (draw_params Math_random levelSettings)
                  (irnd Math_random 5) k (level_seed Math_random s)).
Proof.
  intros Hmax H. apply generate_extrema in H as ->; [|done].
  split; [done|].
  destruct (subsets_extrema_encloses Math_log Math_random
              (draw_params Math_random levelSettings) (irnd Math_random 5)
              (Z.to_nat numPoints) (Z.to_nat numSubsets) 0 6 initial_extrema)
    as (Hord & _ & Hall); [done|].
  split; [exact Hord|]. intros s k Hs Hk.
  specialize (Hall s k ltac:(lia) ltac:(lia)). by rewrite Z.add_0_l in Hall.
Qed.

Lemma extrema_enclose_tracked_points_witness :
  ∃ ext reuse',
    generate Sample.log_unused Sample.quarter Sample.level_2_2_2 2 2 Sample.fresh_2_4
      = Some (ext, reuse') ∧
    within ext (orbit Sample.log_unused (draw_params Sample.quarter Sample.level_2_2_2)
                  (irnd Sample.quarter 5) 1 (level_seed Sample.quarter 1)).
Proof.
  eexists _, _. split; [vm_compute; reflexivity|].
  eapply (proj2 (proj2 (extrema_enclose_tracked_points Sample.log_unused Sample.quarter
            Sample.level_2_2_2 2 2 Sample.fresh_2_4 _ _ ltac:(vm_compute; discriminate)
            ltac:(vm_compute; reflexivity))) 1%nat 1%nat); lia.
Defined.

(** [FractalGeometry], both passes: entry [2 k] and [2 k + 1] of buffer
    [s] of the returned pool are the re-scaled coordinates of the point
    that [k + 1] iterations give from the start point of subset [s], the
    scaling being that of the extrema of the level. *)
Theorem level_output Math_log Math_random levelSettings id
    numSubsets numPoints (reuse out : pool) :
  ifloor (F64.of_f32 (levelSettings !!! 1%nat)) = Some numSubsets →
  ifloor (F64.of_f32 (levelSettings !!! 2%nat)) = Some numPoints →
  FractalGeometry Math_log Math_random levelSettings id reuse = Some out →
  ∀ s k : nat, Z.of_nat s < numSubsets → Z.of_nat k < numPoints →
    ∃ sets : buffer, out !! s = Some sets ∧
      let pt := level_point Math_log Math_random levelSettings s k in
      let sc := level_scaling levelSettings
                  (level_extrema Math_log Math_random levelSettings
                     (Z.to_nat numSubsets) (Z.to_nat numPoints)) in
      sets !! (2 * k)%nat = Some (rescale sc pt.1 pt.2).1 ∧
      sets !! (2 * k + 1)%nat = Some (rescale sc pt.1 pt.2).2.
Proof. apply FractalGeometry_output. Qed.

Lemma level_output_witness :
  ∃ out sets,
    FractalGeometry Sample.log_unused Sample.quarter Sample.level_2_2_2 0
      Sample.fresh_2_4 = Some out ∧
    out !! 1%nat = Some sets ∧
    sets !! 2%nat
    = Some (rescale
              (level_scaling Sample.level_2_2_2
                 (level_extrema Sample.log_unused Sample.quarter Sample.level_2_2_2 2 2))
              (level_point Sample.log_unused Sample.quarter Sample.level_2_2_2 1 1).1
              (level_point Sample.log_unused Sample.quarter Sample.level_2_2_2 1 1).2).1.
Proof.
  destruct (level_output Sample.log_unused Sample.quarter Sample.level_2_2_2 0 2 2
              Sample.fresh_2_4 _ ltac:(vm_compute; reflexivity)
              ltac:(vm_compute; reflexivity) ltac:(vm_compute; reflexivity)
              1%nat 1%nat ltac:(lia) ltac:(lia)) as (sets & Hsets & Hx & _).
  eexists _, sets. split; [reflexivity|]. split; [exact Hsets | exact Hx].
Defined.

(** ** The iteration formula on a vanishing argument *)

Section Collapse.

Variable Math_log : float -> float.

Lemma isqrt_zero : isqrt (S754_zero false) = S754_zero false.
Proof. reflexivity. Qed.

Lemma iabs_zero s : iabs (S754_zero s) = S754_zero false.
Proof. reflexivity. Qed.

Lemma F32_add_zero_r v : is_finite v = true → F32.eqb (F32.add v F32.zero) v = true.
Proof.
  destruct v as [[]|[]| |s m e]; try done. intros _.
  apply (SFeqb_refl (S754_finite s m e)). done.
Qed.

Lemma iter_z_collapse p choice x s :
  F32.sub (F32.mul (bl p) x) (cl p) = S754_zero s →
  (F32.ltb choice F32.c0_75 = true → is_finite (dl p) = true →
   F32.eqb (iter_z Math_log p choice x) (dl p) = true) ∧
  (F32.ltb choice F32.half = false → F32.ltb choice F32.c0_75 = false →
   iter_z Math_log p choice x = F32.add (dl p) (ilog Math_log F32.two)).
Proof.
  intros Harg. unfold iter_z. rewrite Harg, iabs_zero, !isqrt_zero. split.
  - intros H75 Hd. rewrite H75. destruct (F32.ltb choice F32.half); by apply F32_add_zero_r.
  - intros H50 H75. by rewrite H50, H75.
Qed.

End Collapse.

(** [FractalGeometry], iteration formula: where [b x - c] is a zero, the
    first two branches give [z == d] and the third gives
    [d + log 2]. *)
Theorem branches_on_zero_argument Math_log p choice x s :
  F32.sub (F32.mul (bl p) x) (cl p) = S754_zero s →
  (F32.ltb choice F32.c0_75 = true → is_finite (dl p) = true →
   F32.eqb (iter_z Math_log p choice x) (dl p) = true) ∧
  (F32.ltb choice F32.half = false → F32.ltb choice F32.c0_75 = false →
   iter_z Math_log p choice x = F32.add (dl p) (ilog Math_log F32.two)).
Proof. apply iter_z_collapse. Qed.

Lemma branches_on_zero_argument_witness :
  F32.eqb (iter_z Sample.log_unused
             {| al := F32.one; bl := F32.zero; cl := F32.zero; dl := F32.c100; el := F32.one |} F32.half F32.one)
          F32.c100 = true.
Proof.
  apply (proj1 (branches_on_zero_argument Sample.log_unused
                  {| al := F32.one; bl := F32.zero; cl := F32.zero; dl := F32.c100; el := F32.one |}
                  F32.half F32.one false ltac:(vm_compute; reflexivity)));
    vm_compute; reflexivity.
Defined.

(** ** A level of one point per subset *)

Lemma widen_zero_or_nan v :
  is_zero_or_nan v = true → widen F32.zero F32.zero v = (F32.zero, F32.zero).
Proof. by destruct v as [[]|[]| |[] m e]. Qed.

Section OnePoint.

Variable Math_log : float -> float.
Variable Math_random : nat -> float.

Lemma subsets_extrema_one_point p choice n : ∀ s c,
  0 <= s → s + Z.of_nat n <= 100 →
  subsets_extrema Math_log Math_random p choice 1 n s c initial_extrema
  = initial_extrema.
Proof.
  induction n as [|n IH]; intros s c Hs Hn; [done|].
  cbn [subsets_extrema orbit_extrema]. unfold track, seed_of. cbn [fst snd].
  cbn [initial_extrema xMin xMax yMin yMax].
  rewrite !widen_zero_or_nan by (apply subset_seed_quotient; lia).
  apply IH; lia.
Qed.

Lemma one_point_level levelSettings id numSubsets (reuse out : pool) :
  ifloor (F64.of_f32 (levelSettings !!! 1%nat)) = Some numSubsets →
  numSubsets <= 100 →
  ifloor (F64.of_f32 (levelSettings !!! 2%nat)) = Some 1 →
  FractalGeometry Math_log Math_random levelSettings id reuse = Some out →
  ∀ s : nat, Z.of_nat s < numSubsets →
    ∃ (sets : buffer) vx vy,
      out !! s = Some sets ∧ sets !! 0%nat = Some vx ∧ sets !! 1%nat = Some vy ∧
      is_finite vx = false ∧ is_finite vy = false.
Proof.
  intros Hs H100 Hp H s Hsn.
  destruct (FractalGeometry_output Math_log Math_random _ _ _ _ _ _ Hs Hp H s 0%nat)
    as (sets & Hsets & Hx & Hy); [lia | lia |].
  unfold level_extrema in Hx, Hy.
  change (Z.to_nat 1) with 1%nat in Hx, Hy.
  rewrite subsets_extrema_one_point in Hx, Hy by lia.
  eexists sets, _, _. split; [done|]. split; [exact Hx|]. split; [exact Hy|].
  split; by apply rescale_degenerate.
Qed.

End OnePoint.

(** [FractalGeometry] with one point per subset and at most 100 subsets:
    the extrema stay at zero, the scale is a division by zero, and both
    coordinates of every point returned are infinities or NaN. *)
Theorem one_point_level_is_non_finite Math_log Math_random levelSettings id
    numSubsets (reuse out : pool) :
  ifloor (F64.of_f32 (levelSettings !!! 1%nat)) = Some numSubsets →
  numSubsets <= 100 →
  ifloor (F64.of_f32 (levelSettings !!! 2%nat)) = Some 1 →
  FractalGeometry Math_log Math_random levelSettings id reuse = Some out →
  ∀ s : nat, Z.of_nat s < numSubsets →
    ∃ (sets : buffer) vx vy,
      out !! s = Some sets ∧ sets !! 0%nat = Some vx ∧ sets !! 1%nat = Some vy ∧
      is_finite vx = false ∧ is_finite vy = false.
Proof. apply one_point_level. Qed.

Lemma one_point_level_is_non_finite_witness :
  ∃ (out : pool) (sets : buffer) vx,
    FractalGeometry Sample.log_unused Sample.quarter Sample.level_1_1_1 0
      Sample.fresh_2_4 = Some out ∧
    out !! 0%nat = Some sets ∧ sets !! 0%nat = Some vx ∧ is_finite vx = false.
Proof.
  destruct (one_point_level_is_non_finite Sample.log_unused Sample.quarter
              Sample.level_1_1_1 0 1 Sample.fresh_2_4 _
              ltac:(vm_compute; reflexivity) ltac:(lia)
              ltac:(vm_compute; reflexivity) ltac:(vm_compute; reflexivity)
              0%nat ltac:(lia)) as (sets & vx & vy & Hout & Hx & _ & Hfx & _).
  eexists _, sets, vx. split; [reflexivity|]. done.
Defined.
